(** * TextMesher: from a string of text to an extruded surface mesh

    Shallow embedding of [applications/TextMesher/text_mesher.cpp] of Easy3D.

    The font engine (FreeType and the FTGL vectoriser), the polygon
    tessellator, the point-in-polygon test and the scalar arithmetic on
    [float]/[double] are collaborators of the mesher.  They are kept abstract
    (type classes and records of functions), and so is the order in which
    the arguments of a call are evaluated, which C++ leaves open; the mesher
    itself is embedded as executable functions over them, with explicit
    state passing for the three mutable objects of the code: the mesher
    (pen state), the mesh sink and the tessellator. *)

From Stdlib Require Import String Ascii.
From Stdlib Require Import List ZArith NArith QArith Bool Lia Permutation.
Import ListNotations.
Close Scope Q_scope.

Set Implicit Arguments.

(** ** Scalars *)

(** [float] and [double] of the source, with the operations the mesher uses.
    [float_of_int] is the conversion of an integral value to [float] (also
    used for the literals [0.0f] and [1.0f]); [place d x] is
    [(float)(d / SCALE_TO_F26DOT6 + x)] of line 123. *)
Class Scalars : Type := {
  float : Type;
  double : Type;
  fadd : float -> float -> float;
  fsub : float -> float -> float;
  float_of_int : Z -> float;
  place : double -> float -> float
}.

(** Used to convert actual font size to nominal size, in 26.6 fractional
    points. *)
Definition SCALE_TO_F26DOT6 : Z := 64.

(** ** Generic counting loop

    [for_loop n body s] is [for (i = 0; i < n; ++i) s = body i s]. *)
Fixpoint for_from (A : Type) (k i : nat) (body : nat -> A -> A) (s : A) : A :=
  match k with
  | O => s
  | S k' => for_from k' (S i) body (body i s)
  end.

Definition for_loop (A : Type) (n : nat) (body : nat -> A -> A) (s : A) : A :=
  for_from n 0 body s.

(** ** Evaluation order of arguments

    In [mesh->add_triangle(mesh->add_vertex(p0), mesh->add_vertex(p1),
    mesh->add_vertex(p2))] C++ does not say which [add_vertex] runs first.
    [Order_ijk] runs the one of argument [i] first, then that of [j], then
    that of [k]; [argument_order n] is the order taken by the call made
    when the mesh holds [n] triangles, so that it may differ from call to
    call. *)
Inductive ArgOrder : Type :=
| Order_012 | Order_021 | Order_102 | Order_120 | Order_201 | Order_210.

Class ArgumentOrder : Type := {
  argument_order : nat -> ArgOrder
}.

Section Model.
Context {Sc : Scalars}.

(** ** Data model *)

Definition vec2 : Type := (float * float)%type.
Definition vec3 : Type := (float * float * float)%type.

Definition vec3_of (p : vec2) (z : float) : vec3 := (fst p, snd p, z).

Definition vec3_add (a b : vec3) : vec3 :=
  match a, b with
  | (ax, ay, az), (bx, b_y, bz) => (fadd ax bx, fadd ay b_y, fadd az bz)
  end.

Definition zero2 : vec2 := (float_of_int 0, float_of_int 0).
Definition zero3 : vec3 := (float_of_int 0, float_of_int 0, float_of_int 0).

(** [TextMesher::Contour]: a vector of points with a winding flag. *)
Record Contour : Type := {
  pts : list vec2;
  clockwise : bool
}.

(** [TextMesher::CharContour]: a vector of contours with the character. *)
Record CharContour : Type := {
  character : ascii;
  contours : list Contour
}.

Definition empty_contour : Contour := {| pts := []; clockwise := false |}.

(** ** The font collaborator *)

(** One contour of the FTGL [Vectoriser]. *)
Record FTContour : Type := {
  ft_points : list (double * double);
  ft_direction : bool
}.

(** The glyph slot of the face after a successful [FT_Load_Glyph]:
    whether [FT_Get_Glyph] succeeds on it, whether its format is
    [FT_GLYPH_FORMAT_OUTLINE], its metrics in 26.6 units and the contours
    the [Vectoriser] builds from it for a number of bezier steps. *)
Record GlyphSlot : Type := {
  get_glyph_ok : bool;
  format_is_outline : bool;
  lsb_delta : Z;
  rsb_delta : Z;
  advance_x : Z;
  vectorise : nat -> list FTContour
}.

(** The face: [FT_Get_Char_Index] takes the [char] (converted to the
    character code it is called with) to a glyph index; [FT_Load_Glyph] is
    [None] when loading fails; [FT_Get_Kerning] gives the [x] of the
    kerning vector, in 26.6 units. *)
Record Face : Type := {
  FT_Get_Char_Index : ascii -> N;
  FT_Load_Glyph : N -> option GlyphSlot;
  FT_HAS_KERNING : bool;
  FT_Get_Kerning : N -> N -> Z
}.

(** ** The mesher object *)

Record TextMesher : Type := {
  font_face_ : Face;
  bezier_steps_ : nat;
  ready_ : bool;
  prev_char_index_ : N;
  cur_char_index_ : N;
  prev_rsb_delta_ : Z
}.

Definition set_prev_char_index (tm : TextMesher) (v : N) : TextMesher :=
  {| font_face_ := font_face_ tm; bezier_steps_ := bezier_steps_ tm;
     ready_ := ready_ tm; prev_char_index_ := v;
     cur_char_index_ := cur_char_index_ tm;
     prev_rsb_delta_ := prev_rsb_delta_ tm |}.

Definition set_cur_char_index (tm : TextMesher) (v : N) : TextMesher :=
  {| font_face_ := font_face_ tm; bezier_steps_ := bezier_steps_ tm;
     ready_ := ready_ tm; prev_char_index_ := prev_char_index_ tm;
     cur_char_index_ := v;
     prev_rsb_delta_ := prev_rsb_delta_ tm |}.

Definition set_prev_rsb_delta (tm : TextMesher) (v : Z) : TextMesher :=
  {| font_face_ := font_face_ tm; bezier_steps_ := bezier_steps_ tm;
     ready_ := ready_ tm; prev_char_index_ := prev_char_index_ tm;
     cur_char_index_ := cur_char_index_ tm;
     prev_rsb_delta_ := v |}.

(** ** Outline extraction for one character (lines 80-132) *)

(** Lines 101-105: kerning between the previous and the current glyph.
    [kerning.x / SCALE_TO_F26DOT6] divides two integers and truncates
    towards zero ([Z.quot]) before the conversion to [float]. *)
Definition kerned (tm : TextMesher) (x : float) : float :=
  if FT_HAS_KERNING (font_face_ tm) && negb (N.eqb (prev_char_index_ tm) 0)
  then fadd x (float_of_int
                 (Z.quot (FT_Get_Kerning (font_face_ tm)
                            (prev_char_index_ tm) (cur_char_index_ tm))
                         SCALE_TO_F26DOT6))
  else x.

(** Lines 107-110: the side-bearing correction.  The deltas are [FT_Pos]
    values (hinting differences of a fraction of a pixel); their
    difference is taken in [Z]. *)
Definition rsb_corrected (tm : TextMesher) (slot : GlyphSlot) (x : float)
  : float :=
  if (prev_rsb_delta_ tm - lsb_delta slot >=? 32)%Z
  then fsub x (float_of_int 1)
  else if (prev_rsb_delta_ tm - lsb_delta slot <? -32)%Z
       then fadd x (float_of_int 1)
       else x.

(** Lines 118-124: one polygon of the glyph, translated to the pen. *)
Definition polygon_of (c : FTContour) (x y : float) : Contour :=
  {| pts := map (fun d => (place (fst d) x, place (snd d) y)) (ft_points c);
     clockwise := ft_direction c |}.

(** [generate_contours(char ch, float& x, float& y)]: the mesher and [x]
    are updated in place, so both are returned; [y] is never written. *)
Definition generate_contours_char (tm : TextMesher) (ch : ascii)
    (x y : float) : TextMesher * CharContour * float :=
  let char_contour := {| character := ch; contours := [] |} in
  let tm := set_cur_char_index tm (FT_Get_Char_Index (font_face_ tm) ch) in
  match FT_Load_Glyph (font_face_ tm) (cur_char_index_ tm) with
  | None => (tm, char_contour, x)
  | Some slot =>
      if negb (get_glyph_ok slot) then (tm, char_contour, x)
      else if negb (format_is_outline slot) then (tm, char_contour, x)
      else
        let x := kerned tm x in
        let x := rsb_corrected tm slot x in
        let tm := set_prev_rsb_delta tm (rsb_delta slot) in
        let char_contour :=
          {| character := ch;
             contours := map (fun c => polygon_of c x y)
                             (vectorise slot (bezier_steps_ tm)) |} in
        let tm := set_prev_char_index tm (cur_char_index_ tm) in
        let x := fadd x (float_of_int
                           (Z.quot (advance_x slot) SCALE_TO_F26DOT6)) in
        (tm, char_contour, x)
  end.

(** ** Layout of a string (lines 135-147) *)

(** The state of the loop: the mesher, the pen [x] and the output vector. *)
Definition layout_state : Type :=
  (TextMesher * float * list CharContour)%type.

Definition layout_step (text : list ascii) (y : float) (i : nat)
    (s : layout_state) : layout_state :=
  match s with
  | (tm, x, out) =>
      match generate_contours_char tm (nth i text zero) x y with
      | (tm', char_contour, x') => (tm', x', out ++ [char_contour])
      end
  end.

Definition reset_pen (tm : TextMesher) : TextMesher :=
  set_prev_rsb_delta
    (set_cur_char_index (set_prev_char_index tm 0%N) 0%N) 0%Z.

(** [generate_contours(text, x, y, contours)]: returns the mesher and the
    output vector after the call. *)
Definition generate_contours (tm : TextMesher) (text : list ascii)
    (x y : float) (out : list CharContour) : TextMesher * list CharContour :=
  if negb (ready_ tm) then (tm, out)
  else
    match for_loop (length text) (layout_step text y) (reset_pen tm, x, out)
    with
    | (tm', _, out') => (tm', out')
    end.

(** ** The mesh sink

    [SurfaceMesh] is used as an append-only sink: [add_vertex] stores a
    position and returns the handle of the new vertex (its index),
    [add_triangle] stores a face over three handles. *)
Record SurfaceMesh : Type := {
  mesh_vertices : list vec3;
  mesh_triangles : list (nat * nat * nat)
}.

Definition add_vertex (mesh : SurfaceMesh) (p : vec3) : SurfaceMesh * nat :=
  ({| mesh_vertices := mesh_vertices mesh ++ [p];
      mesh_triangles := mesh_triangles mesh |},
   length (mesh_vertices mesh)).

Definition add_triangle (mesh : SurfaceMesh) (v0 v1 v2 : nat) : SurfaceMesh :=
  {| mesh_vertices := mesh_vertices mesh;
     mesh_triangles := mesh_triangles mesh ++ [(v0, v1, v2)] |}.

Context {Ev : ArgumentOrder}.

(** [mesh->add_triangle(mesh->add_vertex(p0), mesh->add_vertex(p1),
    mesh->add_vertex(p2))]: the three [add_vertex] calls run in the order
    taken at this call, and the triangle is made of the handles of [p0],
    [p1] and [p2], in this order. *)
Definition add_triangle_of (mesh : SurfaceMesh) (p0 p1 p2 : vec3)
  : SurfaceMesh :=
  match argument_order (length (mesh_triangles mesh)) with
  | Order_012 =>
      let (mesh, v0) := add_vertex mesh p0 in
      let (mesh, v1) := add_vertex mesh p1 in
      let (mesh, v2) := add_vertex mesh p2 in
      add_triangle mesh v0 v1 v2
  | Order_021 =>
      let (mesh, v0) := add_vertex mesh p0 in
      let (mesh, v2) := add_vertex mesh p2 in
      let (mesh, v1) := add_vertex mesh p1 in
      add_triangle mesh v0 v1 v2
  | Order_102 =>
      let (mesh, v1) := add_vertex mesh p1 in
      let (mesh, v0) := add_vertex mesh p0 in
      let (mesh, v2) := add_vertex mesh p2 in
      add_triangle mesh v0 v1 v2
  | Order_120 =>
      let (mesh, v1) := add_vertex mesh p1 in
      let (mesh, v2) := add_vertex mesh p2 in
      let (mesh, v0) := add_vertex mesh p0 in
      add_triangle mesh v0 v1 v2
  | Order_201 =>
      let (mesh, v2) := add_vertex mesh p2 in
      let (mesh, v0) := add_vertex mesh p0 in
      let (mesh, v1) := add_vertex mesh p1 in
      add_triangle mesh v0 v1 v2
  | Order_210 =>
      let (mesh, v2) := add_vertex mesh p2 in
      let (mesh, v1) := add_vertex mesh p1 in
      let (mesh, v0) := add_vertex mesh p0 in
      add_triangle mesh v0 v1 v2
  end.

(** ** The tessellation collaborator

    The tessellator object is the sequence of calls it has received, in
    call order. *)
Inductive WindingRule : Type := ODD | NONZERO | POSITIVE | NEGATIVE
                              | ABS_GEQ_TWO.

Inductive TessCall : Type :=
| begin_polygon (normal : vec3)
| set_winding_rule (rule : WindingRule)
| begin_contour
| add_tess_vertex (v : vec3)
| end_contour
| end_polygon.

Definition Tessellator : Type := list TessCall.

(** What the mesher reads from its geometric collaborators:
    [geom::point_in_polygon], and the result of the tessellator
    ([vertices()] and the index triples of [get_triangle], one per
    triangle, so [num_triangles()] is the length of that list). *)
Class Geometry : Type := {
  point_in_polygon : vec2 -> list vec2 -> bool;
  tess_vertices : Tessellator -> list vec3;
  tess_triangles : Tessellator -> list (nat * nat * nat)
}.

Context {Ge : Geometry}.

(** ** Mesh generation (lines 150-232) *)

(** Lines 162-168: every point of [contour_a] is in [contour_b]. *)
Fixpoint is_inside_pts (contour_a : list vec2) (contour_b : Contour) : bool :=
  match contour_a with
  | [] => true
  | p :: rest =>
      if negb (point_in_polygon p (pts contour_b)) then false
      else is_inside_pts rest contour_b
  end.

Definition is_inside (contour_a contour_b : Contour) : bool :=
  is_inside_pts (pts contour_a) contour_b.

(** Lines 175-182: the side walls of one contour. *)
Definition side_walls (contour : Contour) (extrude : float)
    (mesh : SurfaceMesh) : SurfaceMesh :=
  for_loop (length (pts contour))
    (fun p (mesh : SurfaceMesh) =>
       let a := vec3_of (nth p (pts contour) zero2) (float_of_int 0) in
       let b := vec3_of (nth ((p + 1) mod length (pts contour))
                             (pts contour) zero2) (float_of_int 0) in
       let c := vec3_add a (float_of_int 0, float_of_int 0, extrude) in
       let d := vec3_add b (float_of_int 0, float_of_int 0, extrude) in
       let mesh := add_triangle_of mesh c b a in
       add_triangle_of mesh c d b)
    mesh.

(** Lines 189-192 and 201-204: one contour handed to the tessellator. *)
Definition tess_contour (contour : Contour) (tess : Tessellator)
  : Tessellator :=
  let tess := tess ++ [begin_contour] in
  let tess :=
    fold_left (fun t p => t ++ [add_tess_vertex (vec3_of p (float_of_int 0))])
              (pts contour) tess in
  tess ++ [end_contour].

(** Lines 196-198: the test of the inner loop. *)
Definition hole_test (ch : list Contour) (index inner_index : nat) : bool :=
  negb (Nat.eqb inner_index index)
  && negb (Bool.eqb (clockwise (nth inner_index ch empty_contour))
                    (clockwise (nth index ch empty_contour)))
  && is_inside (nth inner_index ch empty_contour) (nth index ch empty_contour).

(** Lines 185-209: the caps of one contour. *)
Definition tess_caps (ch : list Contour) (index : nat) (tess : Tessellator)
  : Tessellator :=
  let contour := nth index ch empty_contour in
  if clockwise contour then
    let tess :=
      tess ++ [begin_polygon
                 (float_of_int 0, float_of_int 0, float_of_int (-1))] in
    let tess := tess ++ [set_winding_rule NONZERO] in
    let tess := tess_contour contour tess in
    let tess :=
      for_loop (length ch)
        (fun inner_index tess =>
           if hole_test ch index inner_index then
             let tess := tess ++ [set_winding_rule ODD] in
             tess_contour (nth inner_index ch empty_contour) tess
           else tess)
        tess in
    tess ++ [end_polygon]
  else tess.

(** Lines 173-210: the loop over the contours of one character. *)
Definition mesh_char (extrude : float) (ch : CharContour)
    (s : SurfaceMesh * Tessellator) : SurfaceMesh * Tessellator :=
  for_loop (length (contours ch))
    (fun index (s : SurfaceMesh * Tessellator) =>
       let (mesh, tess) := s in
       let contour := nth index (contours ch) empty_contour in
       (side_walls contour extrude mesh, tess_caps (contours ch) index tess))
    s.

(** Lines 213-229: bottom and top faces from the tessellator's result. *)
Definition emit_caps (tess : Tessellator) (extrude : float)
    (mesh : SurfaceMesh) : SurfaceMesh :=
  let vertices := tess_vertices tess in
  let num := length (tess_triangles tess) in
  for_loop num
    (fun i (mesh : SurfaceMesh) =>
       let '(a, b, c) := nth i (tess_triangles tess) (0, 0, 0) in
       let va := nth a vertices zero3 in
       let vb := nth b vertices zero3 in
       let vc := nth c vertices zero3 in
       let mesh := add_triangle_of mesh va vb vc in
       add_triangle_of mesh
         (fst (fst vc), snd (fst vc), fadd (snd vc) extrude)
         (fst (fst vb), snd (fst vb), fadd (snd vb) extrude)
         (fst (fst va), snd (fst va), fadd (snd va) extrude))
    mesh.

(** The tessellator after all characters have been walked. *)
Definition mesh_chars (extrude : float) (characters : list CharContour)
    (s : SurfaceMesh * Tessellator) : SurfaceMesh * Tessellator :=
  fold_left (fun s ch => mesh_char extrude ch s) characters s.

(** [generate(mesh, text, x, y, extrude)]: the mesher and the mesh after
    the call, and the returned flag. *)
Definition generate (tm : TextMesher) (mesh : SurfaceMesh)
    (text : list ascii) (x y extrude : float)
  : TextMesher * SurfaceMesh * bool :=
  if negb (ready_ tm) then (tm, mesh, false)
  else
    let (tm, characters) := generate_contours tm text x y [] in
    match characters with
    | [] => (tm, mesh, false)
    | _ :: _ =>
        let (mesh, tessellator) := mesh_chars extrude characters (mesh, []) in
        (tm, emit_caps tessellator extrude mesh, true)
    end.

(** [generate(text, x, y, extrude)] (lines 235-246): a new mesh, or
    [None] for the null pointer. *)
Definition generate_new (tm : TextMesher) (text : list ascii)
    (x y extrude : float) : TextMesher * option SurfaceMesh :=
  if negb (ready_ tm) then (tm, None)
  else
    match generate tm {| mesh_vertices := []; mesh_triangles := [] |}
                   text x y extrude with
    | (tm, mesh, true) => (tm, Some mesh)
    | (tm, _, false) => (tm, None)
    end.

End Model.

(** ** Fixtures: exact rational scalars, a ray-casting containment test, a
    fan tessellator and a small synthetic font

    They instantiate the collaborators so that the mesher can be run on
    concrete inputs. *)

Definition q_scalars : Scalars :=
  {| float := Q;
     double := Q;
     fadd := fun a b => Qred (Qplus a b);
     fsub := fun a b => Qred (Qminus a b);
     float_of_int := inject_Z;
     place := fun d x => Qred (Qplus (Qdiv d (inject_Z SCALE_TO_F26DOT6)) x) |}.

Definition Qlt_bool (a b : Q) : bool := negb (Qle_bool b a).

(** Crossing-number test: the edges [(polygon[j], polygon[i])] that a ray
    from [p] towards increasing [x] crosses are counted modulo two. *)
Definition q_point_in_polygon (p : Q * Q) (polygon : list (Q * Q)) : bool :=
  let n := length polygon in
  fst (for_loop n
         (fun i (s : bool * nat) =>
            let (inside, j) := s in
            let u0 := nth i polygon (0%Q, 0%Q) in
            let u1 := nth j polygon (0%Q, 0%Q) in
            if (Qle_bool (snd u0) (snd p) && Qlt_bool (snd p) (snd u1))
               || (Qle_bool (snd u1) (snd p) && Qlt_bool (snd p) (snd u0))
            then
              let x := Qplus (fst u0)
                         (Qdiv (Qmult (Qminus (snd p) (snd u0))
                                      (Qminus (fst u1) (fst u0)))
                               (Qminus (snd u1) (snd u0))) in
              if Qlt_bool (fst p) x then (negb inside, i) else (inside, i)
            else (inside, i))
         (false, n - 1)).

(** The vertices a tessellator has been given, in call order. *)
Fixpoint submitted_vertices (Sc : Scalars) (tess : list (@TessCall Sc))
  : list (@vec3 Sc) :=
  match tess with
  | [] => []
  | add_tess_vertex v :: rest => v :: submitted_vertices rest
  | _ :: rest => submitted_vertices rest
  end.

(** A stand-in tessellator: a triangle fan over the submitted vertices. *)
Definition fan_triangles (n : nat) : list (nat * nat * nat) :=
  map (fun i => (0, S i, S (S i))) (seq 0 (n - 2)).

Definition q_geometry : @Geometry q_scalars :=
  @Build_Geometry q_scalars
    q_point_in_polygon
    (fun tess => submitted_vertices tess)
    (fun tess => fan_triangles (length (submitted_vertices tess))).

(** The arguments of every call evaluated from right to left. *)
Definition right_to_left : ArgumentOrder :=
  {| argument_order := fun _ => Order_210 |}.

(** An axis-parallel square outline in 26.6 units, clockwise when [cw]. *)
Definition square (lo hi : Z) (cw : bool) : @FTContour q_scalars :=
  @Build_FTContour q_scalars
    (if cw
     then [(inject_Z lo, inject_Z lo); (inject_Z lo, inject_Z hi);
           (inject_Z hi, inject_Z hi); (inject_Z hi, inject_Z lo)]
     else [(inject_Z lo, inject_Z lo); (inject_Z hi, inject_Z lo);
           (inject_Z hi, inject_Z hi); (inject_Z lo, inject_Z hi)])
    cw.

Definition outline_glyph (lsb rsb adv : Z) (cs : list (@FTContour q_scalars))
  : @GlyphSlot q_scalars :=
  @Build_GlyphSlot q_scalars true true lsb rsb adv (fun _ => cs).

Definition bitmap_glyph (adv : Z) : @GlyphSlot q_scalars :=
  @Build_GlyphSlot q_scalars true false 0 0 adv (fun _ => []).

(** Glyph 1 is a square ("I"), glyph 2 a square with a square hole ("O"),
    glyph 3 a square with a hole and an island in the hole ("@"), glyph 4
    the space (an outline without contours), glyph 5 a bitmap glyph ("#");
    every other character maps to glyph 0, which fails to load. *)
Definition test_face : @Face q_scalars :=
  @Build_Face q_scalars
    (fun ch =>
       if Ascii.eqb ch "I" then 1%N
       else if Ascii.eqb ch "O" then 2%N
       else if Ascii.eqb ch "@" then 3%N
       else if Ascii.eqb ch " " then 4%N
       else if Ascii.eqb ch "#" then 5%N
       else 0%N)
    (fun idx =>
       match idx with
       | 1%N => Some (outline_glyph (-16) 16 384 [square 0 256 true])
       | 2%N => Some (outline_glyph 0 0 704
                        [square 0 640 true; square 128 512 false])
       | 3%N => Some (outline_glyph 0 (-40) 704
                        [square 0 640 true; square 128 512 false;
                         square 256 384 true])
       | 4%N => Some (outline_glyph 0 0 320 [])
       | 5%N => Some (bitmap_glyph 512)
       | _ => None
       end)
    true
    (fun l r =>
       match l, r with
       | 2%N, 1%N => (-64)%Z
       | _, _ => 0%Z
       end).

Definition test_mesher (ready : bool) : @TextMesher q_scalars :=
  @Build_TextMesher q_scalars test_face 4 ready 7 9 5.

Definition empty_mesh (Sc : Scalars) : @SurfaceMesh Sc :=
  @Build_SurfaceMesh Sc [] [].

Definition text_of (s : String.string) : list ascii :=
  String.list_ascii_of_string s.

(** ** Definitions used by the statements *)

Section Notions.
Context {Sc : Scalars} {Ge : Geometry}.

(** The glyph of [ch] cannot be used: loading fails, retrieval fails or
    the format is not an outline (the three early returns of lines 85-99). *)
Definition glyph_fails (face : Face) (ch : ascii) : bool :=
  match FT_Load_Glyph face (FT_Get_Char_Index face ch) with
  | None => true
  | Some slot => negb (get_glyph_ok slot) || negb (format_is_outline slot)
  end.

(** One iteration of the layout loop on the character itself. *)
Definition layout_char (y : float) (c : ascii) (s : layout_state)
  : layout_state :=
  match s with
  | (tm, x, out) =>
      match generate_contours_char tm c x y with
      | (tm', char_contour, x') => (tm', x', out ++ [char_contour])
      end
  end.

Definition layout_loop (y : float) (text : list ascii) (s : layout_state)
  : layout_state :=
  fold_left (fun s c => layout_char y c s) text s.

(** The result of the extraction of a usable glyph [slot] once the pen has
    been moved to [xc] by kerning and side-bearing correction. *)
Definition extracted (tm : TextMesher) (ch : ascii) (slot : GlyphSlot)
    (xc y : float) : TextMesher * CharContour * float :=
  let idx := FT_Get_Char_Index (font_face_ tm) ch in
  (set_prev_char_index
     (set_prev_rsb_delta (set_cur_char_index tm idx) (rsb_delta slot)) idx,
   {| character := ch;
      contours := map (fun c => polygon_of c xc y)
                      (vectorise slot (bezier_steps_ tm)) |},
   fadd xc (float_of_int (Z.quot (advance_x slot) SCALE_TO_F26DOT6))).

(** The number of contours of a layout, over all characters. *)
Definition contour_count (characters : list CharContour) : nat :=
  list_sum (map (fun ch => length (contours ch)) characters).

(** The number of contour edges of a layout: a contour of [n] points has
    [n] edges (consecutive points, wrapping). *)
Definition edge_count (characters : list CharContour) : nat :=
  list_sum (map (fun ch => list_sum (map (fun c => length (pts c))
                                         (contours ch)))
                characters).

(** The handles of a triangle. *)
Definition handles (t : nat * nat * nat) : list nat :=
  match t with (a, b, c) => [a; b; c] end.

(** A face: the positions of the three corners of a triangle, in the
    order of the triangle. *)
Definition face : Type := (vec3 * vec3 * vec3)%type.

(** The face a triangle stands for in a list of vertices. *)
Definition corners (vertices : list vec3) (t : nat * nat * nat) : face :=
  match t with
  | (a, b, c) =>
      (nth a vertices zero3, nth b vertices zero3, nth c vertices zero3)
  end.

(** The faces of the triangles that [mesh'] holds behind those of [mesh]. *)
Definition written_faces (mesh mesh' : SurfaceMesh) : list face :=
  map (corners (mesh_vertices mesh'))
      (skipn (length (mesh_triangles mesh)) (mesh_triangles mesh')).

(** [mesh'] is [mesh] followed by the triangles of the faces [fs], each
    over three new vertices of its own: the handles of the new triangles
    are the new vertices, each taken once. *)
Definition writes (mesh mesh' : SurfaceMesh) (fs : list face) : Prop :=
  exists (vs : list vec3) (ts : list (nat * nat * nat)),
    mesh_vertices mesh' = mesh_vertices mesh ++ vs
    /\ mesh_triangles mesh' = mesh_triangles mesh ++ ts
    /\ length vs = 3 * length fs
    /\ Permutation (flat_map handles ts)
                   (seq (length (mesh_vertices mesh)) (3 * length fs))
    /\ map (corners (mesh_vertices mesh')) ts = fs.

(** The calls that hand one contour to the tessellator. *)
Definition contour_calls (contour : Contour) : list TessCall :=
  begin_contour
  :: map (fun p => add_tess_vertex (vec3_of p (float_of_int 0))) (pts contour)
  ++ [end_contour].

(** The holes of the contour at [index]: the positions, in order, whose
    contour is handed over under the ODD rule inside the polygon opened for
    that contour (none when no polygon is opened, line 185). *)
Definition holes_of (ch : list Contour) (index : nat) : list nat :=
  if clockwise (nth index ch empty_contour)
  then filter (hole_test ch index) (seq 0 (length ch))
  else [].

(** The calls made for the contour at [index]. *)
Definition polygon_calls (ch : list Contour) (index : nat) : list TessCall :=
  if clockwise (nth index ch empty_contour)
  then [begin_polygon (float_of_int 0, float_of_int 0, float_of_int (-1));
        set_winding_rule NONZERO]
       ++ contour_calls (nth index ch empty_contour)
       ++ flat_map (fun j => set_winding_rule ODD
                             :: contour_calls (nth j ch empty_contour))
                   (holes_of ch index)
       ++ [end_polygon]
  else [].




End Notions.

(** ** The claims as the specification words them, where the code differs *)

(** The side-bearing correction with the bound "exceeds +32": backwards
    above 32, forwards below -32, nothing from -32 to 32. *)
Definition correction_as_specified {Sc : Scalars} (tm : TextMesher)
    (ch : ascii) (x y : float) (slot : GlyphSlot) : Prop :=
  FT_Load_Glyph (font_face_ tm) (FT_Get_Char_Index (font_face_ tm) ch)
  = Some slot ->
  get_glyph_ok slot = true ->
  format_is_outline slot = true ->
  prev_char_index_ tm <> 0%N ->
  let x1 :=
    kerned (set_cur_char_index tm (FT_Get_Char_Index (font_face_ tm) ch)) x in
  let delta := (prev_rsb_delta_ tm - lsb_delta slot)%Z in
  ((32 < delta)%Z ->
   generate_contours_char tm ch x y
   = extracted tm ch slot (fsub x1 (float_of_int 1)) y)
  /\ ((delta < -32)%Z ->
      generate_contours_char tm ch x y
      = extracted tm ch slot (fadd x1 (float_of_int 1)) y)
  /\ ((-32 <= delta <= 32)%Z ->
      generate_contours_char tm ch x y = extracted tm ch slot x1 y).

(** The hole classification for every contour A of a character, whatever
    its flag. *)
Definition holes_as_specified {Sc : Scalars} {Ge : Geometry}
    (ch : list Contour) : Prop :=
  forall i j : nat,
    i < length ch ->
    j < length ch ->
    In j (holes_of ch i)
    <-> clockwise (nth j ch empty_contour)
        <> clockwise (nth i ch empty_contour)
        /\ j <> i
        /\ Forall (fun p => point_in_polygon p (pts (nth i ch empty_contour))
                            = true)
                  (pts (nth j ch empty_contour)).

(** ** Runs of the mesher on the synthetic font *)

Definition no_entry : @CharContour q_scalars :=
  @Build_CharContour q_scalars zero [].

(** The layout of a text from the origin, by a ready mesher. *)
Definition layout_of (s : string) : list (@CharContour q_scalars) :=
  snd (@generate_contours q_scalars (test_mesher true) (text_of s)
                          0%Q 0%Q []).

(** The contours of the first character of a text. *)
Definition contours_of (s : string) : list (@Contour q_scalars) :=
  contours (nth 0 (layout_of s) no_entry).

(** The mesher after it has laid out [s]. *)
Definition mesher_after (s : string) : @TextMesher q_scalars :=
  fst (@generate_contours q_scalars (test_mesher true) (text_of s)
                          0%Q 0%Q []).

Definition glyph_I : @GlyphSlot q_scalars :=
  outline_glyph (-16) 16 384 [square 0 256 true].

Definition run (ready : bool) (s : string)
  : @TextMesher q_scalars * @SurfaceMesh q_scalars * bool :=
  @generate q_scalars right_to_left q_geometry (test_mesher ready)
            (empty_mesh q_scalars)
            (text_of s) 0%Q 0%Q 1%Q.

(** ** Closed forms of what the mesher hands to its collaborators *)

Section Geometry_Notions.
Context {Sc : Scalars} {Ge : Geometry}.

(** The calls made for one character, and for a whole layout. *)
Definition char_calls (ch : CharContour) : list TessCall :=
  flat_map (polygon_calls (contours ch)) (seq 0 (length (contours ch))).

Definition text_calls (characters : list CharContour) : list TessCall :=
  flat_map char_calls characters.

(** The calling protocol of the tessellator: polygons are opened and
    closed one after the other, contours lie inside a polygon and are
    preceded by the choice of a winding rule, vertices lie inside a
    contour. *)
Inductive TessPhase : Type :=
| Idle
| InPolygon (rule_chosen : bool)
| InContour.

Definition protocol_step (phase : TessPhase) (call : TessCall)
  : option TessPhase :=
  match phase, call with
  | Idle, begin_polygon _ => Some (InPolygon false)
  | InPolygon _, set_winding_rule _ => Some (InPolygon true)
  | InPolygon true, begin_contour => Some InContour
  | InContour, add_tess_vertex _ => Some InContour
  | InContour, end_contour => Some (InPolygon false)
  | InPolygon false, end_polygon => Some Idle
  | _, _ => None
  end.

Fixpoint protocol (phase : TessPhase) (calls : list TessCall)
  : option TessPhase :=
  match calls with
  | [] => Some phase
  | call :: rest =>
      match protocol_step phase call with
      | Some phase' => protocol phase' rest
      | None => None
      end
  end.

(** A polygon with its points moved on by one place: the ends of the
    edges that start at the points of the polygon. *)
Definition rotl (A : Type) (l : list A) : list A :=
  match l with
  | [] => []
  | a :: rest => rest ++ [a]
  end.

(** The two faces of the wall over the edge from [fst ab] to [snd ab]:
    with [a] and [b] the ends of the edge at depth zero and [c] and [d]
    the same points at depth [extrude], the faces [(c, b, a)] and
    [(c, d, b)]. *)
Definition wall_faces (extrude : float) (ab : vec2 * vec2) : list face :=
  let a := vec3_of (fst ab) (float_of_int 0) in
  let b := vec3_of (snd ab) (float_of_int 0) in
  let c := vec3_add a (float_of_int 0, float_of_int 0, extrude) in
  let d := vec3_add b (float_of_int 0, float_of_int 0, extrude) in
  [(c, b, a); (c, d, b)].

Definition contour_walls (extrude : float) (contour : Contour) : list face :=
  flat_map (wall_faces extrude) (combine (pts contour) (rotl (pts contour))).

Definition text_walls (extrude : float) (characters : list CharContour)
  : list face :=
  flat_map (fun ch => flat_map (contour_walls extrude) (contours ch))
           characters.

(** A point raised by [extrude]. *)
Definition lifted (extrude : float) (v : vec3) : vec3 :=
  (fst (fst v), snd (fst v), fadd (snd v) extrude).

(** The two faces made from one triangle [(a, b, c)] of the tessellator:
    the bottom face on its corners, and the top face on the same corners
    raised and taken in the opposite order. *)
Definition cap_faces (tess : Tessellator) (extrude : float)
    (t : nat * nat * nat) : list face :=
  match t with
  | (a, b, c) =>
      let va := nth a (tess_vertices tess) zero3 in
      let vb := nth b (tess_vertices tess) zero3 in
      let vc := nth c (tess_vertices tess) zero3 in
      [(va, vb, vc);
       (lifted extrude vc, lifted extrude vb, lifted extrude va)]
  end.

Definition text_caps (tess : Tessellator) (extrude : float) : list face :=
  flat_map (cap_faces tess extrude) (tess_triangles tess).

(** The contours of the glyph of [ch] placed at [(xc, y)], none when the
    glyph cannot be used. *)
Definition placed_outline (tm : TextMesher) (ch : ascii) (xc y : float)
  : list Contour :=
  match FT_Load_Glyph (font_face_ tm) (FT_Get_Char_Index (font_face_ tm) ch)
  with
  | Some slot =>
      if get_glyph_ok slot && format_is_outline slot
      then map (fun c => polygon_of c xc y)
               (vectorise slot (bezier_steps_ tm))
      else []
  | None => []
  end.

(** Two meshers with the same face, bezier steps and ready flag. *)
Definition same_font (a b : TextMesher) : Prop :=
  font_face_ a = font_face_ b
  /\ bezier_steps_ a = bezier_steps_ b
  /\ ready_ a = ready_ b.

End Geometry_Notions.

(** ** The font resource (lines 29-77)

    The mesher object with its two FreeType handles.  [font_library_] and
    the face handle are [None] for the null pointer; the face handle
    carries the face it points to.  The log lists the calls made to
    FreeType for the handles, in call order, with what they returned. *)

Section Lifecycle.
Context {Sc : Scalars}.
Variable Library : Type.

(** The resolution in dpi. *)
Definition RESOLUTION : Z := 96.

(** FreeType as the mesher finds it at the time of a call: whether the
    library can be initialised, which face a font file gives, and the face
    after a size request.  [None] is a failed call, which leaves the
    handle it was to fill as it is. *)
Record FreeType : Type := {
  FT_Init_FreeType : option Library;
  FT_New_Face : Library -> string -> option Face;
  FT_Set_Char_Size : Face -> Z -> Z -> Z -> Z -> option Face
}.

Inductive FTCall : Type :=
| Done_Face (face : option Face)
| Done_FreeType (library : option Library)
| Init_FreeType (result : option Library)
| New_Face (library : Library) (font_file : string) (result : option Face)
| Set_Char_Size (face : Face) (char_width char_height : Z)
                (horz_resolution vert_resolution : Z) (result : option Face).

Record FontObject : Type := {
  font_library_ : option Library;
  face_handle : option Face;
  bezier_steps : nat;
  ready : bool;
  prev_char_index : N;
  cur_char_index : N;
  prev_rsb_delta : Z
}.

Definition set_handles (obj : FontObject) (library : option Library)
    (face : option Face) : FontObject :=
  {| font_library_ := library; face_handle := face;
     bezier_steps := bezier_steps obj; ready := ready obj;
     prev_char_index := prev_char_index obj;
     cur_char_index := cur_char_index obj;
     prev_rsb_delta := prev_rsb_delta obj |}.

Definition set_ready (obj : FontObject) (v : bool) : FontObject :=
  {| font_library_ := font_library_ obj; face_handle := face_handle obj;
     bezier_steps := bezier_steps obj; ready := v;
     prev_char_index := prev_char_index obj;
     cur_char_index := cur_char_index obj;
     prev_rsb_delta := prev_rsb_delta obj |}.

(** [cleanup()] (lines 46-51). *)
Definition cleanup (s : FontObject * list FTCall) : FontObject * list FTCall :=
  let (obj, log) := s in
  let log := log ++ [Done_Face (face_handle obj)] in
  let log := log ++ [Done_FreeType (font_library_ obj)] in
  (set_handles obj None None, log).

(** An [int] of 32 bits holding [z] when [z] fits, and [z] wrapped around
    otherwise (C++ leaves the overflow of [int] undefined; the builds wrap). *)
Definition to_int (z : Z) : Z :=
  ((z + 2147483648) mod 4294967296 - 2147483648)%Z.

(** [set_font(font_file, font_height)] (lines 54-77); the size request
    [font_height * SCALE_TO_F26DOT6] is a product of two [int]s. *)
Definition set_font (ft : FreeType) (s : FontObject * list FTCall)
    (font_file : string) (font_height : Z) : FontObject * list FTCall :=
  let (obj, log) := cleanup s in
  let log := log ++ [Init_FreeType (FT_Init_FreeType ft)] in
  match FT_Init_FreeType ft with
  | None => (set_ready obj false, log)
  | Some library =>
      let obj := set_handles obj (Some library) (face_handle obj) in
      let log :=
        log ++ [New_Face library font_file
                         (FT_New_Face ft library font_file)] in
      match FT_New_Face ft library font_file with
      | None => (set_ready obj false, log)
      | Some face =>
          let obj := set_handles obj (font_library_ obj) (Some face) in
          let sized :=
            FT_Set_Char_Size ft face
              (to_int (font_height * SCALE_TO_F26DOT6))
              (to_int (font_height * SCALE_TO_F26DOT6))
              RESOLUTION RESOLUTION in
          let log :=
            log ++ [Set_Char_Size face
                      (to_int (font_height * SCALE_TO_F26DOT6))
                      (to_int (font_height * SCALE_TO_F26DOT6))
                      RESOLUTION RESOLUTION sized] in
          match sized with
          | None => (set_ready obj false, log)
          | Some face' =>
              (set_ready (set_handles obj (font_library_ obj) (Some face'))
                         true, log)
          end
      end
  end%Z.

(** The constructor (lines 29-38); [ready_] has no initialiser, so its
    value before [set_font] is whatever [indeterminate] is. *)
Definition construct (ft : FreeType) (indeterminate : bool)
    (font_file : string) (font_height : Z) : FontObject * list FTCall :=
  set_font ft
    ({| font_library_ := None; face_handle := None; bezier_steps := 4;
        ready := indeterminate; prev_char_index := 0; cur_char_index := 0;
        prev_rsb_delta := 0 |}, [])
    font_file font_height.

(** The destructor (lines 41-43). *)
Definition destruct_object (s : FontObject * list FTCall)
  : FontObject * list FTCall :=
  cleanup s.

(** A whole life of the object: construction, any number of [set_font]
    calls, each with FreeType as it is then, and destruction. *)
Definition whole_life (ft : FreeType) (indeterminate : bool)
    (font_file : string) (font_height : Z)
    (later : list (FreeType * string * Z)) : FontObject * list FTCall :=
  destruct_object
    (fold_left (fun s call => set_font (fst (fst call)) s (snd (fst call))
                                       (snd call))
               later (construct ft indeterminate font_file font_height)).

(** The mesher the other operations work on, when the face handle is not
    null. *)
Definition mesher_of (obj : FontObject) : option TextMesher :=
  match face_handle obj with
  | Some face =>
      Some {| font_face_ := face; bezier_steps_ := bezier_steps obj;
              ready_ := ready obj; prev_char_index_ := prev_char_index obj;
              cur_char_index_ := cur_char_index obj;
              prev_rsb_delta_ := prev_rsb_delta obj |}
  | None => None
  end.

(** What FreeType asks of its caller: a face is made from a live library
    and released before it, a size is requested of a live face, nothing is
    released twice and the library is not initialised over a live one.
    Releasing the null handle does nothing. *)
Inductive FTPhase : Type := NoLibrary | LibraryOnly | LibraryAndFace.

Definition resource_step (phase : FTPhase) (call : FTCall)
  : option FTPhase :=
  match call, phase with
  | Done_Face None, _ => Some phase
  | Done_Face (Some _), LibraryAndFace => Some LibraryOnly
  | Done_FreeType None, _ => Some phase
  | Done_FreeType (Some _), LibraryOnly => Some NoLibrary
  | Init_FreeType None, NoLibrary => Some NoLibrary
  | Init_FreeType (Some _), NoLibrary => Some LibraryOnly
  | New_Face _ _ None, LibraryOnly => Some LibraryOnly
  | New_Face _ _ (Some _), LibraryOnly => Some LibraryAndFace
  | Set_Char_Size _ _ _ _ _ _, LibraryAndFace => Some LibraryAndFace
  | _, _ => None
  end.

Fixpoint resource_protocol (phase : FTPhase) (log : list FTCall)
  : option FTPhase :=
  match log with
  | [] => Some phase
  | call :: rest =>
      match resource_step phase call with
      | Some phase' => resource_protocol phase' rest
      | None => None
      end
  end.

(** The phase the handles of an object stand for; a face without a
    library stands for none. *)
Definition phase_of (obj : FontObject) : option FTPhase :=
  match font_library_ obj, face_handle obj with
  | None, None => Some NoLibrary
  | Some _, None => Some LibraryOnly
  | Some _, Some _ => Some LibraryAndFace
  | None, Some _ => None
  end.

(** The log is accepted from [p0] and ends in the phase the handles of the
    object stand for. *)
Definition tracked (p0 : FTPhase) (s : FontObject * list FTCall) : Prop :=
  exists phase : FTPhase,
    resource_protocol p0 (snd s) = Some phase
    /\ phase_of (fst s) = Some phase.

End Lifecycle.

(** FreeType at its best: the library initialises, every font file gives
    the synthetic face and every size is accepted. *)
Definition obliging_freetype : @FreeType q_scalars unit :=
  @Build_FreeType q_scalars unit
    (Some tt) (fun _ _ => Some test_face) (fun face _ _ _ _ => Some face).

(** A mesher constructed for "font.ttf" at 10 points, with the flag
    found set. *)
Definition constructed_at_10
  : @FontObject q_scalars unit * list (@FTCall q_scalars unit) :=
  @construct q_scalars unit obliging_freetype true "font.ttf" 10.

(** * Properties *)

Section LoopFacts.
Variables A B : Type.

Lemma for_from_seq (k : nat) : forall (i : nat) (body : nat -> A -> A) (s : A),
  for_from k i body s = fold_left (fun s j => body j s) (seq i k) s.
Proof.
  induction k as [|k IH]; intros i body s; simpl; [reflexivity|].
  apply IH.
Qed.

Lemma for_loop_seq (n : nat) (body : nat -> A -> A) (s : A) :
  for_loop n body s = fold_left (fun s j => body j s) (seq 0 n) s.
Proof. apply for_from_seq. Qed.

Lemma for_from_nth (d : B) (f : B -> A -> A) (body : nat -> A -> A) :
  forall (l2 l1 : list B) (s : A),
    (forall i s, body i s = f (nth i (l1 ++ l2) d) s) ->
    for_from (length l2) (length l1) body s
    = fold_left (fun s a => f a s) l2 s.
Proof.
  induction l2 as [|a l2 IH]; intros l1 s Hbody; simpl; [reflexivity|].
  rewrite Hbody, app_nth2, Nat.sub_diag by lia. simpl.
  replace (S (length l1)) with (length (l1 ++ [a]))
    by (rewrite length_app; simpl; lia).
  apply IH. intros i s'. rewrite <- app_assoc. apply Hbody.
Qed.

Lemma for_loop_nth (d : B) (f : B -> A -> A) (body : nat -> A -> A)
    (l : list B) (s : A) :
  (forall i s, body i s = f (nth i l d) s) ->
  for_loop (length l) body s = fold_left (fun s a => f a s) l s.
Proof. intros H. apply (for_from_nth d f body l [] s H). Qed.

(** A view [mu] of the state that each iteration updates from the element
    at its index alone is folded over the elements. *)
Lemma for_from_view (M : Type) (mu : A -> M) (d : B) (h : B -> M -> M)
    (body : nat -> A -> A) :
  forall (l2 l1 : list B) (s : A),
    (forall i s, mu (body i s) = h (nth i (l1 ++ l2) d) (mu s)) ->
    mu (for_from (length l2) (length l1) body s)
    = fold_left (fun m a => h a m) l2 (mu s).
Proof.
  induction l2 as [|a l2 IH]; intros l1 s Hbody; simpl; [reflexivity|].
  replace (S (length l1)) with (length (l1 ++ [a]))
    by (rewrite length_app; simpl; lia).
  rewrite IH by (intros i s'; rewrite <- app_assoc; apply Hbody).
  rewrite Hbody, app_nth2, Nat.sub_diag by lia. reflexivity.
Qed.

Lemma for_loop_view (M : Type) (mu : A -> M) (d : B) (h : B -> M -> M)
    (body : nat -> A -> A) (l : list B) (s : A) :
  (forall i s, mu (body i s) = h (nth i l d) (mu s)) ->
  mu (for_loop (length l) body s) = fold_left (fun m a => h a m) l (mu s).
Proof. intros H. apply (for_from_view mu d h body l [] s H). Qed.

End LoopFacts.

Section Layout.
Context {Sc : Scalars}.

Lemma layout_loop_eq (y : float) (text : list ascii) (s : layout_state) :
  for_loop (length text) (layout_step text y) s = layout_loop y text s.
Proof.
  unfold layout_loop. apply for_loop_nth with (d := zero).
  intros i [[tm x] out]. reflexivity.
Qed.

Lemma generate_contours_char_character (tm : TextMesher) (ch : ascii)
    (x y : float) :
  character (snd (fst (generate_contours_char tm ch x y))) = ch.
Proof.
  unfold generate_contours_char.
  destruct (FT_Load_Glyph _ _) as [slot|]; [|reflexivity].
  destruct (get_glyph_ok slot); [|reflexivity].
  destruct (format_is_outline slot); reflexivity.
Qed.

Lemma generate_contours_char_face (tm : TextMesher) (ch : ascii)
    (x y : float) :
  let tm' := fst (fst (generate_contours_char tm ch x y)) in
  font_face_ tm' = font_face_ tm /\ ready_ tm' = ready_ tm
  /\ bezier_steps_ tm' = bezier_steps_ tm.
Proof.
  unfold generate_contours_char.
  destruct (FT_Load_Glyph _ _) as [slot|]; [|simpl; auto].
  destruct (get_glyph_ok slot); [|simpl; auto].
  destruct (format_is_outline slot); simpl; auto.
Qed.

(** The entries already in the output vector are a frame of the loop. *)
Lemma layout_loop_frame (y : float) (text : list ascii) :
  forall (tm : TextMesher) (x : float) (out : list CharContour),
    layout_loop y text (tm, x, out)
    = (fst (layout_loop y text (tm, x, [])),
       out ++ snd (layout_loop y text (tm, x, []))).
Proof.
  induction text as [|c text IH]; intros tm x out; simpl.
  - now rewrite app_nil_r.
  - destruct (generate_contours_char tm c x y) as [[tm1 cc] x1]. simpl.
    rewrite (IH tm1 x1 (out ++ [cc])), (IH tm1 x1 [cc]). simpl.
    now rewrite <- app_assoc.
Qed.

Lemma layout_loop_characters (y : float) (text : list ascii) :
  forall (tm : TextMesher) (x : float),
    map character (snd (layout_loop y text (tm, x, []))) = text.
Proof.
  induction text as [|c text IH]; intros tm x; simpl; [reflexivity|].
  pose proof (generate_contours_char_character tm c x y) as Hc.
  destruct (generate_contours_char tm c x y) as [[tm1 cc] x1]. simpl in *.
  rewrite (layout_loop_frame y text tm1 x1 [cc]). simpl.
  now rewrite IH, Hc.
Qed.

Lemma layout_loop_face (y : float) (text : list ascii) :
  forall (tm : TextMesher) (x : float) (out : list CharContour),
    font_face_ (fst (fst (layout_loop y text (tm, x, out)))) = font_face_ tm.
Proof.
  induction text as [|c text IH]; intros tm x out; simpl; [reflexivity|].
  pose proof (generate_contours_char_face tm c x y) as [Hf _].
  destruct (generate_contours_char tm c x y) as [[tm1 cc] x1]. simpl in *.
  now rewrite IH.
Qed.

Lemma layout_loop_app (y : float) (pre post : list ascii) (s : layout_state) :
  layout_loop y (pre ++ post) s = layout_loop y post (layout_loop y pre s).
Proof. unfold layout_loop. apply fold_left_app. Qed.

Lemma generate_contours_ready (tm : TextMesher) (text : list ascii)
    (x y : float) (out : list CharContour) :
  ready_ tm = true ->
  generate_contours tm text x y out
  = (fst (fst (layout_loop y text (reset_pen tm, x, out))),
     snd (layout_loop y text (reset_pen tm, x, out))).
Proof.
  intros Hr. unfold generate_contours. rewrite Hr. simpl.
  rewrite layout_loop_eq.
  now destruct (layout_loop y text (reset_pen tm, x, out)) as [[tm' x'] out'].
Qed.

Lemma generate_contours_characters (tm : TextMesher) (text : list ascii)
    (x y : float) :
  ready_ tm = true ->
  map character (snd (generate_contours tm text x y [])) = text.
Proof.
  intros Hr. rewrite generate_contours_ready by assumption. simpl.
  apply layout_loop_characters.
Qed.

Lemma generate_contours_length (tm : TextMesher) (text : list ascii)
    (x y : float) :
  ready_ tm = true ->
  length (snd (generate_contours tm text x y [])) = length text.
Proof.
  intros Hr. rewrite <- (generate_contours_characters tm text x y Hr) at 2.
  now rewrite length_map.
Qed.

Lemma generate_contours_frame (tm : TextMesher) (text : list ascii)
    (x y : float) (out : list CharContour) :
  snd (generate_contours tm text x y out)
  = out ++ snd (generate_contours tm text x y []).
Proof.
  destruct (ready_ tm) eqn:Hr.
  - rewrite !generate_contours_ready by assumption. simpl.
    now rewrite layout_loop_frame.
  - unfold generate_contours. rewrite Hr. simpl. now rewrite app_nil_r.
Qed.

End Layout.

(** ** The non-ready state, the layout walker and the outline extractor *)

Section LayoutClaims.
Context {Sc : Scalars} {Ev : ArgumentOrder} {Ge : Geometry}.

Lemma generate_contours_char_fails (tm : TextMesher) (ch : ascii)
    (x y : float) :
  glyph_fails (font_face_ tm) ch = true ->
  generate_contours_char tm ch x y
  = (set_cur_char_index tm (FT_Get_Char_Index (font_face_ tm) ch),
     {| character := ch; contours := [] |}, x).
Proof.
  unfold glyph_fails, generate_contours_char. simpl.
  destruct (FT_Load_Glyph _ _) as [slot|]; [|reflexivity].
  destruct (get_glyph_ok slot); [|reflexivity].
  destruct (format_is_outline slot); [discriminate|reflexivity].
Qed.

Lemma generate_contours_char_loads (tm : TextMesher) (ch : ascii)
    (x y : float) (slot : GlyphSlot) :
  FT_Load_Glyph (font_face_ tm) (FT_Get_Char_Index (font_face_ tm) ch)
  = Some slot ->
  get_glyph_ok slot = true ->
  format_is_outline slot = true ->
  generate_contours_char tm ch x y
  = extracted tm ch slot
      (rsb_corrected tm slot
         (kerned (set_cur_char_index tm (FT_Get_Char_Index (font_face_ tm) ch))
                 x)) y.
Proof.
  intros Hl Hg Hf. unfold generate_contours_char. simpl.
  rewrite Hl, Hg, Hf. reflexivity.
Qed.

(** C2. In the non-ready state [generate] returns failure and hands the
    mesh back as it was (no vertex and no triangle added), and
    [generate_contours] returns with the output vector as it was (empty
    when it was empty) and the mesher, pen state included, unchanged. *)
Theorem not_ready_is_noop (tm : TextMesher) (mesh : SurfaceMesh)
    (text : list ascii) (x y extrude : float) (out : list CharContour) :
  ready_ tm = false ->
  generate tm mesh text x y extrude = (tm, mesh, false)
  /\ generate_contours tm text x y out = (tm, out)
  /\ generate_contours tm text x y [] = (tm, []).
Proof.
  intros Hr. unfold generate, generate_contours. rewrite Hr. auto.
Qed.

(** C7. In the ready state [generate_contours] produces one entry per
    character of the text, in the order of the text, after whatever the
    vector held; the pen state is reset first, so the call does not depend
    on the pen state it finds and the first character is extracted from
    the zeroed pen state. *)
Theorem one_entry_per_character (tm : TextMesher) (text : list ascii)
    (x y : float) (out : list CharContour) :
  ready_ tm = true ->
  let new := snd (generate_contours tm text x y []) in
  snd (generate_contours tm text x y out) = out ++ new
  /\ length new = length text
  /\ map character new = text
  /\ generate_contours tm text x y out
     = generate_contours (reset_pen tm) text x y out
  /\ (prev_char_index_ (reset_pen tm) = 0%N
      /\ cur_char_index_ (reset_pen tm) = 0%N
      /\ prev_rsb_delta_ (reset_pen tm) = 0%Z)
  /\ hd_error new
     = match text with
       | [] => None
       | c :: _ =>
           Some (snd (fst (generate_contours_char (reset_pen tm) c x y)))
       end.
Proof.
  intros Hr new.
  split; [apply generate_contours_frame|].
  split; [now apply generate_contours_length|].
  split; [now apply generate_contours_characters|].
  split; [now rewrite !generate_contours_ready by assumption|].
  split; [simpl; auto|].
  unfold new. rewrite generate_contours_ready by assumption. simpl.
  destruct text as [|c rest]; [reflexivity|]. simpl.
  destruct (generate_contours_char (reset_pen tm) c x y) as [[tm1 cc] x1].
  simpl. now rewrite layout_loop_frame.
Qed.

(** C9. A character whose glyph cannot be used yields an entry without
    contours and leaves the pen [x] where it was; in a text, the loop goes
    on with the characters after it, from the pen position reached before
    it. *)
Theorem failed_glyph_is_skipped (tm : TextMesher) (ch : ascii) (x y : float)
    (pre post : list ascii) (out : list CharContour) :
  glyph_fails (font_face_ tm) ch = true ->
  ready_ tm = true ->
  let idx := FT_Get_Char_Index (font_face_ tm) ch in
  let skipped := {| character := ch; contours := [] |} in
  generate_contours_char tm ch x y = (set_cur_char_index tm idx, skipped, x)
  /\ (let '(tm1, x1, out1) :=
        for_loop (length pre) (layout_step pre y) (reset_pen tm, x, out) in
      generate_contours tm (pre ++ ch :: post) x y out
      = let '(tm2, _, out2) :=
          for_loop (length post) (layout_step post y)
                   (set_cur_char_index tm1 idx, x1, out1 ++ [skipped]) in
        (tm2, out2)).
Proof.
  intros Hf Hr idx skipped. split.
  - now apply generate_contours_char_fails.
  - rewrite generate_contours_ready by assumption.
    rewrite layout_loop_app, !layout_loop_eq.
    pose proof (layout_loop_face y pre (reset_pen tm) x out) as Hface.
    destruct (layout_loop y pre (reset_pen tm, x, out)) as [[tm1 x1] out1].
    simpl in Hface. unfold layout_loop at 1 2. simpl.
    rewrite generate_contours_char_fails by (now rewrite Hface).
    rewrite Hface, layout_loop_eq. fold idx. fold skipped.
    fold (layout_loop y post
            (set_cur_char_index tm1 idx, x1, out1 ++ [skipped])).
    now destruct (layout_loop y post _) as [[tm2 x2] out2].
Qed.

(** C10. [generate_contours] only appends: the entries the vector held
    stay in front, unchanged, and the entries behind them are those the
    same call produces on an empty vector. *)
Theorem generate_contours_appends (tm : TextMesher) (text : list ascii)
    (x y : float) (out : list CharContour) :
  snd (generate_contours tm text x y out)
  = out ++ snd (generate_contours tm text x y []).
Proof. apply generate_contours_frame. Qed.

(** C5, amended. For a usable glyph, with [delta] the previous glyph's
    [rsb_delta] minus this glyph's [lsb_delta], the pen [x] (after kerning)
    is moved back by one when [delta >= 32], forward by one when
    [delta < -32], and left alone otherwise; the contours are placed and
    the advance is added from there. *)
Theorem side_bearing_correction (tm : TextMesher) (ch : ascii) (x y : float)
    (slot : GlyphSlot) :
  FT_Load_Glyph (font_face_ tm) (FT_Get_Char_Index (font_face_ tm) ch)
  = Some slot ->
  get_glyph_ok slot = true ->
  format_is_outline slot = true ->
  let x1 :=
    kerned (set_cur_char_index tm (FT_Get_Char_Index (font_face_ tm) ch)) x in
  let delta := (prev_rsb_delta_ tm - lsb_delta slot)%Z in
  ((32 <= delta)%Z ->
   generate_contours_char tm ch x y
   = extracted tm ch slot (fsub x1 (float_of_int 1)) y)
  /\ ((delta < -32)%Z ->
      generate_contours_char tm ch x y
      = extracted tm ch slot (fadd x1 (float_of_int 1)) y)
  /\ ((-32 <= delta < 32)%Z ->
      generate_contours_char tm ch x y = extracted tm ch slot x1 y).
Proof.
  intros Hl Hg Hf x1 delta.
  rewrite (generate_contours_char_loads tm ch x y Hl Hg Hf).
  fold x1. unfold rsb_corrected. fold delta.
  repeat split; intros Hd.
  - destruct (Z.geb_spec delta 32) as [_|Hn]; [reflexivity|lia].
  - destruct (Z.geb_spec delta 32) as [Hn|_]; [lia|].
    destruct (Z.ltb_spec delta (-32)) as [_|Hn]; [reflexivity|lia].
  - destruct (Z.geb_spec delta 32) as [Hn|_]; [lia|].
    destruct (Z.ltb_spec delta (-32)) as [Hn|_]; [lia|reflexivity].
Qed.

End LayoutClaims.

(** ** The mesh sink: triangles over fresh vertices *)

Section MeshFacts.
Context {Sc : Scalars} {Ev : ArgumentOrder} {Ge : Geometry}.

(** Each call of the sink grows the mesh, so a mesh handed back unchanged
    has received no call. *)
Lemma add_vertex_grows (mesh : SurfaceMesh) (p : vec3) :
  length (mesh_vertices (fst (add_vertex mesh p)))
  = S (length (mesh_vertices mesh)).
Proof. simpl. rewrite length_app. simpl. lia. Qed.

Lemma add_triangle_grows (mesh : SurfaceMesh) (v0 v1 v2 : nat) :
  length (mesh_triangles (add_triangle mesh v0 v1 v2))
  = S (length (mesh_triangles mesh)).
Proof. simpl. rewrite length_app. simpl. lia. Qed.

Lemma list_sum_cons (a : nat) (l : list nat) :
  list_sum (a :: l) = a + list_sum l.
Proof. reflexivity. Qed.

Lemma flat_map_ext_seq (A : Type) (f g : nat -> list A) (n : nat) :
  (forall p, p < n -> f p = g p) ->
  flat_map f (seq 0 n) = flat_map g (seq 0 n).
Proof.
  intros H. rewrite !flat_map_concat_map. f_equal.
  apply map_ext_in. intros p Hp. apply H. apply in_seq in Hp. lia.
Qed.

Lemma flat_map_map_comp (A B C : Type) (h : A -> B) (f : B -> list C)
    (l : list A) :
  flat_map f (map h l) = flat_map (fun a => f (h a)) l.
Proof.
  induction l as [|a l IH]; simpl; [reflexivity|]. now rewrite IH.
Qed.

Lemma flat_map_nth_seq (A C : Type) (d : A) (f : A -> list C) (l : list A) :
  flat_map (fun i => f (nth i l d)) (seq 0 (length l)) = flat_map f l.
Proof.
  induction l as [|a l IH]; simpl; [reflexivity|].
  now rewrite <- seq_shift, flat_map_map_comp, IH.
Qed.

Lemma length_flat_map_const (A B : Type) (f : A -> list B) (k : nat)
    (l : list A) :
  (forall a, length (f a) = k) ->
  length (flat_map f l) = k * length l.
Proof.
  intros Hf. induction l as [|a l IH]; simpl; [lia|].
  rewrite length_app, Hf, IH. lia.
Qed.

Lemma length_rotl (A : Type) (l : list A) : length (rotl l) = length l.
Proof.
  destruct l as [|a l]; [reflexivity|].
  simpl. rewrite length_app. simpl. lia.
Qed.

(** The end of the edge that starts at position [p]. *)
Lemma nth_rotl (A : Type) (d : A) (l : list A) (p : nat) :
  p < length l ->
  nth ((p + 1) mod length l) l d = nth p (rotl l) d.
Proof.
  destruct l as [|a l]; [simpl; lia|]. intros Hp.
  cbn [length rotl] in *.
  destruct (Nat.eq_dec p (length l)) as [->|Hne].
  - replace (length l + 1) with (S (length l)) by lia.
    rewrite Nat.Div0.mod_same, app_nth2, Nat.sub_diag by lia. reflexivity.
  - rewrite Nat.mod_small by lia.
    replace (p + 1) with (S p) by lia. cbn [nth].
    now rewrite app_nth1 by lia.
Qed.

Lemma map_nth_combine (A B : Type) (d : A) (d' : B) (l : list A) :
  forall l' : list B,
    length l = length l' ->
    map (fun p => (nth p l d, nth p l' d')) (seq 0 (length l))
    = combine l l'.
Proof.
  induction l as [|a l IH]; intros [|b l'] Hlen; simpl in *;
    try discriminate; [reflexivity|].
  f_equal. rewrite <- seq_shift, map_map. apply IH. lia.
Qed.

(** *** The relation [writes] *)

Lemma writes_refl (mesh : SurfaceMesh) : writes mesh mesh [].
Proof.
  exists [], []. rewrite !app_nil_r. repeat split. constructor.
Qed.

Lemma corners_old (V vs : list vec3) (t : nat * nat * nat) :
  (forall v, In v (handles t) -> v < length V) ->
  corners (V ++ vs) t = corners V t.
Proof.
  destruct t as [[a b] c]. intros H. unfold corners.
  rewrite !app_nth1 by (apply H; simpl; auto). reflexivity.
Qed.

Lemma writes_trans (m0 m1 m2 : SurfaceMesh) (fs1 fs2 : list face) :
  writes m0 m1 fs1 ->
  writes m1 m2 fs2 ->
  writes m0 m2 (fs1 ++ fs2).
Proof.
  intros (vs1 & ts1 & Hv1 & Ht1 & Hl1 & Hp1 & Hc1)
         (vs2 & ts2 & Hv2 & Ht2 & Hl2 & Hp2 & Hc2).
  exists (vs1 ++ vs2), (ts1 ++ ts2).
  rewrite Hv1, length_app, Hl1 in Hp2.
  split; [now rewrite Hv2, Hv1, app_assoc|].
  split; [now rewrite Ht2, Ht1, app_assoc|].
  split; [rewrite !length_app; lia|].
  split.
  - rewrite flat_map_app, length_app, Nat.mul_add_distr_l, seq_app.
    now apply Permutation_app.
  - rewrite map_app, Hc2. f_equal. rewrite <- Hc1.
    apply map_ext_in. intros t Hin. rewrite Hv2. apply corners_old.
    intros v Hv.
    assert (Hseq : In v (seq (length (mesh_vertices m0))
                             (3 * length fs1))).
    { eapply Permutation_in; [exact Hp1|].
      apply in_flat_map. now exists t. }
    apply in_seq in Hseq. rewrite Hv1, length_app. lia.
Qed.

(** Three vertices added one after the other. *)
Lemma three_new_vertices (V : list vec3) (pa pb pc : vec3) :
  ((V ++ [pa]) ++ [pb]) ++ [pc] = V ++ [pa; pb; pc]
  /\ nth (length V) (V ++ [pa; pb; pc]) zero3 = pa
  /\ nth (length (V ++ [pa])) (V ++ [pa; pb; pc]) zero3 = pb
  /\ nth (length ((V ++ [pa]) ++ [pb])) (V ++ [pa; pb; pc]) zero3 = pc.
Proof.
  split; [now rewrite <- !app_assoc|].
  rewrite !length_app. cbn [length].
  replace (length V) with (length V + 0) at 1 by lia.
  replace (length V + 1 + 1) with (length V + 2) by lia.
  rewrite !app_nth2_plus. auto.
Qed.

Lemma three_new_handles (V : list vec3) (pa pb pc : vec3) (h0 h1 h2 : nat) :
  Permutation [h0; h1; h2]
              [length V; length (V ++ [pa]); length ((V ++ [pa]) ++ [pb])] ->
  Permutation (flat_map handles [(h0, h1, h2)]) (seq (length V) (3 * 1)).
Proof.
  intros Hp. cbn [flat_map handles app Nat.mul seq Nat.add].
  eapply Permutation_trans; [exact Hp|].
  rewrite !length_app. cbn [length].
  replace (length V + 1) with (S (length V)) by lia.
  replace (S (length V) + 1) with (S (S (length V))) by lia.
  apply Permutation_refl.
Qed.

Lemma perm3 (A : Type) (x y z : A) :
  Permutation [x; z; y] [x; y; z]
  /\ Permutation [y; x; z] [x; y; z]
  /\ Permutation [y; z; x] [x; y; z]
  /\ Permutation [z; x; y] [x; y; z]
  /\ Permutation [z; y; x] [x; y; z].
Proof.
  assert (H1 : Permutation [x; z; y] [x; y; z])
    by (apply perm_skip, perm_swap).
  assert (H2 : Permutation [y; x; z] [x; y; z]) by apply perm_swap.
  repeat split; auto.
  - eapply perm_trans; [apply perm_skip, perm_swap|exact H2].
  - eapply perm_trans; [apply perm_swap|exact H1].
  - eapply perm_trans; [apply perm_skip, perm_swap|].
    eapply perm_trans; [apply perm_swap|exact H1].
Qed.

Lemma add_triangle_of_writes (mesh : SurfaceMesh) (p0 p1 p2 : vec3) :
  writes mesh (add_triangle_of mesh p0 p1 p2) [(p0, p1, p2)].
Proof.
  unfold add_triangle_of, writes.
  destruct (argument_order (length (mesh_triangles mesh)));
    cbn [add_vertex add_triangle mesh_vertices mesh_triangles];
    match goal with
    | |- context [((mesh_vertices mesh ++ [?pa]) ++ [?pb]) ++ [?pc]] =>
        destruct (three_new_vertices (mesh_vertices mesh) pa pb pc)
          as (Hv & Ha & Hb & Hc);
        destruct (perm3 (length (mesh_vertices mesh))
                        (length (mesh_vertices mesh ++ [pa]))
                        (length ((mesh_vertices mesh ++ [pa]) ++ [pb])))
          as (Q1 & Q2 & Q3 & Q4 & Q5);
        exists [pa; pb; pc]; eexists;
        (split; [exact Hv|]);
        (split; [reflexivity|]);
        (split; [reflexivity|]);
        (split;
         [apply (three_new_handles _ pa pb pc);
          first [apply Permutation_refl | exact Q1 | exact Q2 | exact Q3
                | exact Q4 | exact Q5]
         |cbn [map corners]; rewrite Hv, Ha, Hb, Hc; reflexivity])
    end.
Qed.

Lemma two_triangles_write (mesh : SurfaceMesh) (p0 p1 p2 q0 q1 q2 : vec3) :
  writes mesh (add_triangle_of (add_triangle_of mesh p0 p1 p2) q0 q1 q2)
         [(p0, p1, p2); (q0, q1, q2)].
Proof.
  apply (@writes_trans mesh (add_triangle_of mesh p0 p1 p2) _
                       [(p0, p1, p2)] [(q0, q1, q2)]);
    apply add_triangle_of_writes.
Qed.

(** A loop each iteration of which writes the faces of its element. *)
Lemma fold_writes (B : Type) (body : B -> SurfaceMesh -> SurfaceMesh)
    (g : B -> list face) :
  (forall b m, writes m (body b m) (g b)) ->
  forall (l : list B) (mesh : SurfaceMesh),
    writes mesh (fold_left (fun m b => body b m) l mesh) (flat_map g l).
Proof.
  intros Hbody. induction l as [|b l IH]; intros mesh; simpl.
  - apply writes_refl.
  - eapply writes_trans; [apply Hbody|apply IH].
Qed.

Lemma side_walls_writes (contour : Contour) (extrude : float)
    (mesh : SurfaceMesh) :
  writes mesh (side_walls contour extrude mesh)
         (contour_walls extrude contour).
Proof.
  assert (Heq : contour_walls extrude contour
                = flat_map
                    (fun p => wall_faces extrude
                                (nth p (pts contour) zero2,
                                 nth ((p + 1) mod length (pts contour))
                                     (pts contour) zero2))
                    (seq 0 (length (pts contour)))).
  { unfold contour_walls.
    rewrite <- (map_nth_combine zero2 zero2 (pts contour) (rotl (pts contour)))
      by (now rewrite length_rotl).
    rewrite flat_map_map_comp. symmetry.
    apply flat_map_ext_seq. intros p Hp. now rewrite nth_rotl. }
  rewrite Heq. unfold side_walls. rewrite for_loop_seq.
  apply (fold_writes
           (fun p (mesh : SurfaceMesh) =>
              add_triangle_of
                (add_triangle_of mesh
                   (vec3_add
                      (vec3_of (nth p (pts contour) zero2) (float_of_int 0))
                      (float_of_int 0, float_of_int 0, extrude))
                   (vec3_of (nth ((p + 1) mod length (pts contour))
                                 (pts contour) zero2) (float_of_int 0))
                   (vec3_of (nth p (pts contour) zero2) (float_of_int 0)))
                (vec3_add
                   (vec3_of (nth p (pts contour) zero2) (float_of_int 0))
                   (float_of_int 0, float_of_int 0, extrude))
                (vec3_add
                   (vec3_of (nth ((p + 1) mod length (pts contour))
                                 (pts contour) zero2) (float_of_int 0))
                   (float_of_int 0, float_of_int 0, extrude))
                (vec3_of (nth ((p + 1) mod length (pts contour))
                              (pts contour) zero2) (float_of_int 0)))).
  intros p m. apply two_triangles_write.
Qed.

Lemma emit_caps_writes (tess : Tessellator) (extrude : float)
    (mesh : SurfaceMesh) :
  writes mesh (emit_caps tess extrude mesh) (text_caps tess extrude).
Proof.
  unfold text_caps.
  rewrite <- (flat_map_nth_seq (0, 0, 0) (cap_faces tess extrude)
                               (tess_triangles tess)).
  unfold emit_caps. rewrite for_loop_seq.
  apply (fold_writes
           (fun i (mesh : SurfaceMesh) =>
              let '(a, b, c) := nth i (tess_triangles tess) (0, 0, 0) in
              add_triangle_of
                (add_triangle_of mesh
                   (nth a (tess_vertices tess) zero3)
                   (nth b (tess_vertices tess) zero3)
                   (nth c (tess_vertices tess) zero3))
                (fst (fst (nth c (tess_vertices tess) zero3)),
                 snd (fst (nth c (tess_vertices tess) zero3)),
                 fadd (snd (nth c (tess_vertices tess) zero3)) extrude)
                (fst (fst (nth b (tess_vertices tess) zero3)),
                 snd (fst (nth b (tess_vertices tess) zero3)),
                 fadd (snd (nth b (tess_vertices tess) zero3)) extrude)
                (fst (fst (nth a (tess_vertices tess) zero3)),
                 snd (fst (nth a (tess_vertices tess) zero3)),
                 fadd (snd (nth a (tess_vertices tess) zero3)) extrude))).
  intros i m.
  destruct (nth i (tess_triangles tess) (0, 0, 0)) as [[a b] c].
  apply two_triangles_write.
Qed.

Lemma mesh_char_mesh (extrude : float) (ch : CharContour)
    (s : SurfaceMesh * Tessellator) :
  fst (mesh_char extrude ch s)
  = fold_left (fun m c => side_walls c extrude m) (contours ch) (fst s).
Proof.
  unfold mesh_char.
  apply for_loop_view with (mu := fst) (d := empty_contour)
                           (h := fun c m => side_walls c extrude m).
  intros i [m t]. reflexivity.
Qed.

Lemma mesh_chars_writes (extrude : float) (characters : list CharContour) :
  forall s : SurfaceMesh * Tessellator,
    writes (fst s) (fst (mesh_chars extrude characters s))
           (text_walls extrude characters).
Proof.
  unfold mesh_chars, text_walls.
  induction characters as [|ch characters IH]; intros s.
  - apply writes_refl.
  - cbn [fold_left flat_map].
    eapply writes_trans; [|apply IH].
    rewrite mesh_char_mesh.
    apply (fold_writes (fun c m => side_walls c extrude m)).
    intros c m. apply side_walls_writes.
Qed.

Lemma length_contour_walls (extrude : float) (contour : Contour) :
  length (contour_walls extrude contour) = 2 * length (pts contour).
Proof.
  unfold contour_walls.
  rewrite length_flat_map_const with (k := 2) by reflexivity.
  now rewrite length_combine, length_rotl, Nat.min_id.
Qed.

Lemma length_text_walls (extrude : float) (characters : list CharContour) :
  length (text_walls extrude characters) = 2 * edge_count characters.
Proof.
  unfold text_walls, edge_count.
  induction characters as [|ch characters IH]; [reflexivity|].
  cbn [flat_map map]. rewrite length_app, IH, list_sum_cons.
  assert (H : length (flat_map (contour_walls extrude) (contours ch))
              = 2 * list_sum (map (fun c => length (pts c)) (contours ch))).
  { induction (contours ch) as [|c cs IHc]; [reflexivity|].
    cbn [flat_map map].
    rewrite length_app, IHc, length_contour_walls, list_sum_cons. lia. }
  rewrite H. lia.
Qed.

Lemma length_text_caps (tess : Tessellator) (extrude : float) :
  length (text_caps tess extrude) = 2 * length (tess_triangles tess).
Proof.
  unfold text_caps. apply length_flat_map_const with (k := 2).
  now intros [[a b] c].
Qed.

Lemma writes_written (mesh mesh' : SurfaceMesh) (fs : list face) :
  writes mesh mesh' fs -> written_faces mesh mesh' = fs.
Proof.
  intros (vs & ts & _ & Ht & _ & _ & Hc). unfold written_faces.
  now rewrite Ht, skipn_app, Nat.sub_diag, skipn_all.
Qed.

(** The new triangles use the new vertices, each once. *)
Lemma writes_fresh (mesh mesh' : SurfaceMesh) (fs : list face) :
  writes mesh mesh' fs ->
  exists (vs : list vec3) (ts : list (nat * nat * nat)),
    mesh_vertices mesh' = mesh_vertices mesh ++ vs
    /\ mesh_triangles mesh' = mesh_triangles mesh ++ ts
    /\ length ts = length fs
    /\ length vs = 3 * length fs
    /\ NoDup (flat_map handles ts)
    /\ (forall v, In v (flat_map handles ts)
                  <-> length (mesh_vertices mesh) <= v
                      < length (mesh_vertices mesh) + 3 * length fs).
Proof.
  intros (vs & ts & Hv & Ht & Hl & Hp & Hc). exists vs, ts.
  split; [exact Hv|]. split; [exact Ht|].
  split; [now rewrite <- Hc, length_map|]. split; [exact Hl|].
  split.
  - eapply Permutation_NoDup; [apply Permutation_sym; exact Hp|].
    apply seq_NoDup.
  - intros v. rewrite <- in_seq. split; intros H.
    + eapply Permutation_in; [exact Hp|exact H].
    + eapply Permutation_in; [apply Permutation_sym; exact Hp|exact H].
Qed.

End MeshFacts.

(** ** The calls received by the tessellator *)

Section TessFacts.
Context {Sc : Scalars} {Ev : ArgumentOrder} {Ge : Geometry}.

Lemma fold_left_snoc (A B : Type) (f : A -> B) (l : list A) :
  forall t : list B,
    fold_left (fun t p => t ++ [f p]) l t = t ++ map f l.
Proof.
  induction l as [|a l IH]; intros t; simpl.
  - now rewrite app_nil_r.
  - now rewrite IH, <- app_assoc.
Qed.

Lemma tess_contour_eq (contour : Contour) (tess : Tessellator) :
  tess_contour contour tess = tess ++ contour_calls contour.
Proof.
  unfold tess_contour, contour_calls.
  rewrite fold_left_snoc, <- !app_assoc. reflexivity.
Qed.

Lemma holes_loop_eq (ch : list Contour) (index : nat) (l : list nat) :
  forall tess : Tessellator,
    fold_left
      (fun tess inner_index =>
         if hole_test ch index inner_index
         then tess_contour (nth inner_index ch empty_contour)
                           (tess ++ [set_winding_rule ODD])
         else tess) l tess
    = tess ++ flat_map (fun j => set_winding_rule ODD
                                 :: contour_calls (nth j ch empty_contour))
                       (filter (hole_test ch index) l).
Proof.
  induction l as [|j l IH]; intros tess; simpl.
  - now rewrite app_nil_r.
  - rewrite IH. destruct (hole_test ch index j); [|reflexivity].
    rewrite tess_contour_eq, <- !app_assoc. reflexivity.
Qed.

Lemma tess_caps_eq (ch : list Contour) (index : nat) (tess : Tessellator) :
  tess_caps ch index tess = tess ++ polygon_calls ch index.
Proof.
  unfold tess_caps, polygon_calls, holes_of.
  destruct (clockwise (nth index ch empty_contour)).
  - rewrite for_loop_seq, holes_loop_eq, tess_contour_eq.
    rewrite <- !app_assoc. reflexivity.
  - now rewrite app_nil_r.
Qed.








Lemma is_inside_pts_spec (contour_a : list vec2) (contour_b : Contour) :
  is_inside_pts contour_a contour_b = true
  <-> Forall (fun p => point_in_polygon p (pts contour_b) = true) contour_a.
Proof.
  induction contour_a as [|p l IH]; simpl.
  - split; auto.
  - destruct (point_in_polygon p (pts contour_b)) eqn:Hp; simpl.
    + rewrite IH. split; [now constructor|now inversion 1].
    + split; [discriminate|]. inversion 1; congruence.
Qed.

Lemma hole_test_spec (ch : list Contour) (index inner_index : nat) :
  hole_test ch index inner_index = true
  <-> inner_index <> index
      /\ clockwise (nth inner_index ch empty_contour)
         <> clockwise (nth index ch empty_contour)
      /\ Forall (fun p => point_in_polygon
                            p (pts (nth index ch empty_contour)) = true)
                (pts (nth inner_index ch empty_contour)).
Proof.
  unfold hole_test, is_inside.
  rewrite !andb_true_iff, !negb_true_iff, Nat.eqb_neq, eqb_false_iff,
    is_inside_pts_spec.
  tauto.
Qed.

End TessFacts.

(** ** The mesh generation as a whole *)

Section GenerateFacts.
Context {Sc : Scalars} {Ev : ArgumentOrder} {Ge : Geometry}.

Lemma generate_ready (tm : TextMesher) (mesh : SurfaceMesh)
    (text : list ascii) (x y extrude : float) :
  ready_ tm = true ->
  generate tm mesh text x y extrude
  = let r := generate_contours tm text x y [] in
    match snd r with
    | [] => (fst r, mesh, false)
    | _ :: _ =>
        let s := mesh_chars extrude (snd r) (mesh, []) in
        (fst r, emit_caps (snd s) extrude (fst s), true)
    end.
Proof.
  intros Hr. unfold generate. rewrite Hr. simpl.
  destruct (generate_contours tm text x y []) as [tm1 characters]. simpl.
  destruct characters as [|c characters]; [reflexivity|].
  now destruct (mesh_chars extrude (c :: characters) (mesh, [])).
Qed.

(** [generate] returns [true] exactly in the ready state on a text with
    at least one character. *)
Lemma generate_flag (tm : TextMesher) (mesh : SurfaceMesh)
    (text : list ascii) (x y extrude : float) :
  snd (generate tm mesh text x y extrude) = true
  <-> ready_ tm = true /\ text <> [].
Proof.
  destruct (ready_ tm) eqn:Hr.
  - rewrite generate_ready by assumption. cbv zeta.
    pose proof (generate_contours_length tm text x y Hr) as Hlen.
    destruct (snd (generate_contours tm text x y [])) as [|c cs];
      destruct text as [|a text]; simpl in *; try discriminate.
    + split; [discriminate|]. intros [_ H]. now contradiction H.
    + split; [|reflexivity]. intros _. split; [reflexivity|discriminate].
  - unfold generate. rewrite Hr. simpl.
    split; [discriminate|]. intros [H _]. discriminate.
Qed.

Lemma generate_mesh_eq (tm : TextMesher) (mesh : SurfaceMesh)
    (text : list ascii) (x y extrude : float) :
  ready_ tm = true ->
  text <> [] ->
  let characters := snd (generate_contours tm text x y []) in
  snd (fst (generate tm mesh text x y extrude))
  = emit_caps (snd (mesh_chars extrude characters (mesh, []))) extrude
              (fst (mesh_chars extrude characters (mesh, []))).
Proof.
  intros Hr Htext. cbv zeta. rewrite generate_ready by assumption. cbv zeta.
  pose proof (generate_contours_length tm text x y Hr) as Hlen.
  destruct (snd (generate_contours tm text x y [])) as [|c cs];
    [|reflexivity].
  destruct text; [now contradiction Htext|discriminate].
Qed.

(** What a successful [generate] writes: the walls, then the caps. *)
Lemma generate_writes (tm : TextMesher) (mesh : SurfaceMesh)
    (text : list ascii) (x y extrude : float) :
  ready_ tm = true ->
  text <> [] ->
  let characters := snd (generate_contours tm text x y []) in
  writes mesh (snd (fst (generate tm mesh text x y extrude)))
         (text_walls extrude characters
          ++ text_caps (snd (mesh_chars extrude characters (mesh, [])))
                       extrude).
Proof.
  intros Hr Htext. cbv zeta. rewrite generate_mesh_eq by assumption.
  cbv zeta.
  eapply writes_trans; [|apply emit_caps_writes].
  apply (mesh_chars_writes extrude _ (mesh, [])).
Qed.

End GenerateFacts.

(** ** Tessellation protocol, hole classification and mesh closure *)

Section MeshClaims.
Context {Sc : Scalars} {Ev : ArgumentOrder} {Ge : Geometry}.

(** C3. For a clockwise contour the tessellator receives, after what it
    had received before: one [begin_polygon], the contour itself under
    NONZERO, then each of its holes, in order, under ODD, and one
    [end_polygon]. *)
Theorem outer_then_holes (ch : list Contour) (index : nat)
    (tess : Tessellator) :
  clockwise (nth index ch empty_contour) = true ->
  tess_caps ch index tess
  = tess
    ++ [begin_polygon (float_of_int 0, float_of_int 0, float_of_int (-1))]
    ++ (set_winding_rule NONZERO
        :: contour_calls (nth index ch empty_contour))
    ++ flat_map (fun j => set_winding_rule ODD
                          :: contour_calls (nth j ch empty_contour))
                (holes_of ch index)
    ++ [end_polygon].
Proof.
  intros Hcw. rewrite tess_caps_eq. unfold polygon_calls. rewrite Hcw.
  reflexivity.
Qed.

(** C4, amended. For a clockwise contour A of a character, the contour B
    at another position of the same character is one of the holes of A
    exactly when its flag differs from that of A, it stands at a different
    position, and each of its points passes the point-in-polygon test
    against A. *)
Theorem hole_classification (ch : list Contour) (i j : nat) :
  i < length ch ->
  j < length ch ->
  clockwise (nth i ch empty_contour) = true ->
  In j (holes_of ch i)
  <-> clockwise (nth j ch empty_contour) <> clockwise (nth i ch empty_contour)
      /\ j <> i
      /\ Forall (fun p => point_in_polygon p (pts (nth i ch empty_contour))
                          = true)
                (pts (nth j ch empty_contour)).
Proof.
  intros Hi Hj Hcw. unfold holes_of. rewrite Hcw.
  rewrite filter_In, in_seq, hole_test_spec. rewrite Hcw.
  split.
  - intros (_ & Hne & Hc & Hin). auto.
  - intros (Hc & Hne & Hin). repeat split; auto; lia.
Qed.

(** C6. When [generate] succeeds, the mesh is the given mesh followed by
    [2 * edges + 2 * caps] triangles, where [edges] counts the edges of all
    contours of all characters and [caps] the triangles of the tessellator;
    three vertices are added per triangle, and the handles of the new
    triangles are exactly the new vertices, each used once. *)
Theorem triangle_count_and_fresh_vertices (tm : TextMesher)
    (mesh : SurfaceMesh) (text : list ascii) (x y extrude : float)
    (tm' : TextMesher) (mesh' : SurfaceMesh) :
  generate tm mesh text x y extrude = (tm', mesh', true) ->
  let characters := snd (generate_contours tm text x y []) in
  let tessellator := snd (mesh_chars extrude characters (mesh, [])) in
  let n := 2 * edge_count characters
           + 2 * length (tess_triangles tessellator) in
  exists (new_vertices : list vec3) (new_triangles : list (nat * nat * nat)),
    mesh_vertices mesh' = mesh_vertices mesh ++ new_vertices
    /\ mesh_triangles mesh' = mesh_triangles mesh ++ new_triangles
    /\ length new_triangles = n
    /\ length new_vertices = 3 * n
    /\ NoDup (flat_map handles new_triangles)
    /\ (forall v, In v (flat_map handles new_triangles)
                  <-> length (mesh_vertices mesh) <= v
                      < length (mesh_vertices mesh) + 3 * n).
Proof.
  intros Hgen. cbv zeta.
  assert (Hr : ready_ tm = true /\ text <> []).
  { apply (generate_flag tm mesh text x y extrude). now rewrite Hgen. }
  destruct Hr as [Hr Htext].
  pose proof (@generate_writes _ _ _ tm mesh text x y extrude Hr Htext)
    as Hw.
  cbv zeta in Hw. rewrite Hgen in Hw. cbn [fst snd] in Hw.
  destruct (writes_fresh Hw)
    as (vs & ts & Hv & Ht & Hlt & Hlv & Hnd & Hin).
  rewrite length_app, length_text_walls, length_text_caps in *.
  exists vs, ts. repeat split; auto; now apply Hin.
Qed.



End MeshClaims.

(** ** Runs on the synthetic font *)

(** C1. The space has an outline without contours, "?" fails to load and
    "#" is a bitmap glyph: no contour is produced for these texts, and
    [generate] still returns [true], with nothing added to the mesh. *)
Theorem generate_succeeds_without_contours :
  contour_count (layout_of " ") = 0
  /\ snd (run true " ") = true
  /\ snd (fst (run true " ")) = empty_mesh q_scalars
  /\ contour_count (layout_of "?#") = 0
  /\ snd (run true "?#") = true
  /\ snd (fst (run true "?#")) = empty_mesh q_scalars.
Proof. vm_compute. repeat split; reflexivity. Qed.

(** C5 as worded fails when the difference is exactly 32: for the second
    "I" of "II" the previous [rsb_delta] is 16 and the [lsb_delta] is -16,
    and the pen is moved back by one. *)
Lemma correction_at_32 :
  ~ @correction_as_specified q_scalars (mesher_after "I") "I" 6%Q 0%Q glyph_I.
Proof.
  intros H.
  destruct (H eq_refl eq_refl eq_refl ltac:(discriminate)) as (_ & _ & H3).
  assert (Hd : (-32 <= prev_rsb_delta_ (mesher_after "I")
                       - lsb_delta glyph_I <= 32)%Z)
    by (vm_compute; split; discriminate).
  specialize (H3 Hd). apply (f_equal snd) in H3.
  vm_compute in H3. discriminate.
Qed.

(** C4 as worded fails for a contour A that is not clockwise: in "@" the
    island (position 2, clockwise) lies inside the hole (position 1,
    counter-clockwise), and the hole is given no holes. *)
Lemma island_in_hole_not_classified :
  ~ @holes_as_specified q_scalars q_geometry (contours_of "@").
Proof.
  intros H.
  destruct (H 1 2 ltac:(vm_compute; lia) ltac:(vm_compute; lia))
    as [_ Hback].
  assert (Hin : In 2 (@holes_of q_scalars q_geometry (contours_of "@") 1)).
  { apply Hback. split; [vm_compute; discriminate|]. split; [lia|].
    vm_compute.
    repeat first [apply Forall_nil
                 | apply Forall_cons; [vm_compute; reflexivity|]]. }
  vm_compute in Hin. exact Hin.
Qed.

(** ** The theorems at concrete inputs *)

Lemma not_ready_is_noop_at_OI :
  ready_ (test_mesher false) = false
  /\ (run false "OI" = (test_mesher false, empty_mesh q_scalars, false)
      /\ @generate_contours q_scalars (test_mesher false) (text_of "OI")
                            0%Q 0%Q (layout_of "@")
         = (test_mesher false, layout_of "@")
      /\ @generate_contours q_scalars (test_mesher false) (text_of "OI")
                            0%Q 0%Q []
         = (test_mesher false, [])).
Proof.
  split; [reflexivity|].
  apply (@not_ready_is_noop q_scalars right_to_left q_geometry (test_mesher false)
           (empty_mesh q_scalars) (text_of "OI") 0%Q 0%Q 1%Q (layout_of "@")).
  reflexivity.
Defined.

Lemma one_entry_per_character_at_OI :
  ready_ (test_mesher true) = true
  /\ (snd (@generate_contours q_scalars (test_mesher true) (text_of "O?I")
                              0%Q 0%Q (layout_of "@"))
      = layout_of "@" ++ layout_of "O?I"
      /\ length (layout_of "O?I") = length (text_of "O?I")
      /\ map character (layout_of "O?I") = text_of "O?I"
      /\ @generate_contours q_scalars (test_mesher true) (text_of "O?I")
                            0%Q 0%Q (layout_of "@")
         = @generate_contours q_scalars (reset_pen (test_mesher true))
                              (text_of "O?I") 0%Q 0%Q (layout_of "@")
      /\ (prev_char_index_ (reset_pen (test_mesher true)) = 0%N
          /\ cur_char_index_ (reset_pen (test_mesher true)) = 0%N
          /\ prev_rsb_delta_ (reset_pen (test_mesher true)) = 0%Z)
      /\ hd_error (layout_of "O?I")
         = Some (snd (fst (@generate_contours_char q_scalars
                             (reset_pen (test_mesher true)) "O" 0%Q 0%Q)))).
Proof.
  split; [reflexivity|].
  apply (@one_entry_per_character q_scalars (test_mesher true)
           (text_of "O?I") 0%Q 0%Q (layout_of "@")).
  reflexivity.
Defined.

Lemma failed_glyph_is_skipped_at_question_mark :
  glyph_fails (font_face_ (test_mesher true)) "?" = true
  /\ ready_ (test_mesher true) = true
  /\ (@generate_contours_char q_scalars (test_mesher true) "?" 3%Q 0%Q
      = (set_cur_char_index (test_mesher true) 0%N,
         @Build_CharContour q_scalars "?" [], 3%Q)
      /\ (let '(tm1, x1, out1) :=
            for_loop (length (text_of "O"))
                     (@layout_step q_scalars (text_of "O") 0%Q)
                     (reset_pen (test_mesher true), 3%Q, []) in
          @generate_contours q_scalars (test_mesher true)
                             (text_of "O" ++ "?"%char :: text_of "I")
                             3%Q 0%Q []
          = let '(tm2, _, out2) :=
              for_loop (length (text_of "I"))
                       (@layout_step q_scalars (text_of "I") 0%Q)
                       (set_cur_char_index tm1 0%N, x1,
                        out1 ++ [@Build_CharContour q_scalars "?" []]) in
            (tm2, out2))).
Proof.
  split; [reflexivity|]. split; [reflexivity|].
  apply (@failed_glyph_is_skipped q_scalars (test_mesher true) "?" 3%Q 0%Q
           (text_of "O") (text_of "I") []); reflexivity.
Defined.

Lemma side_bearing_correction_at_32 :
  FT_Load_Glyph (font_face_ (mesher_after "I"))
                (FT_Get_Char_Index (font_face_ (mesher_after "I")) "I")
  = Some glyph_I
  /\ get_glyph_ok glyph_I = true
  /\ format_is_outline glyph_I = true
  /\ (32 <= prev_rsb_delta_ (mesher_after "I") - lsb_delta glyph_I)%Z
  /\ @generate_contours_char q_scalars (mesher_after "I") "I" 6%Q 0%Q
     = extracted (mesher_after "I") "I" glyph_I 5%Q 0%Q.
Proof.
  split; [reflexivity|]. split; [reflexivity|]. split; [reflexivity|].
  split; [vm_compute; discriminate|].
  apply (proj1 (@side_bearing_correction q_scalars (mesher_after "I") "I"
                  6%Q 0%Q glyph_I eq_refl eq_refl eq_refl)).
  vm_compute. discriminate.
Defined.

Lemma outer_then_holes_at_O :
  clockwise (nth 0 (contours_of "O") empty_contour) = true
  /\ @tess_caps q_scalars q_geometry (contours_of "O") 0 []
     = [] ++ [@begin_polygon q_scalars (0%Q, 0%Q, inject_Z (-1))]
       ++ (set_winding_rule NONZERO
           :: contour_calls (nth 0 (contours_of "O") empty_contour))
       ++ flat_map (fun j => set_winding_rule ODD
                             :: contour_calls
                                  (nth j (contours_of "O") empty_contour))
                   (@holes_of q_scalars q_geometry (contours_of "O") 0)
       ++ [end_polygon].
Proof.
  split; [reflexivity|].
  apply (@outer_then_holes q_scalars q_geometry (contours_of "O") 0 []).
  reflexivity.
Defined.

Lemma hole_classification_at_O :
  0 < length (contours_of "O")
  /\ 1 < length (contours_of "O")
  /\ clockwise (nth 0 (contours_of "O") empty_contour) = true
  /\ (In 1 (@holes_of q_scalars q_geometry (contours_of "O") 0)
      <-> clockwise (nth 1 (contours_of "O") empty_contour)
          <> clockwise (nth 0 (contours_of "O") empty_contour)
          /\ 1 <> 0
          /\ Forall (fun p => @point_in_polygon q_scalars q_geometry p
                                (pts (nth 0 (contours_of "O") empty_contour))
                              = true)
                    (pts (nth 1 (contours_of "O") empty_contour))).
Proof.
  split; [vm_compute; lia|]. split; [vm_compute; lia|].
  split; [reflexivity|].
  apply (@hole_classification q_scalars q_geometry (contours_of "O") 0 1).
  - vm_compute; lia.
  - vm_compute; lia.
  - reflexivity.
Defined.

Lemma triangle_count_at_O :
  run true "O" = (fst (fst (run true "O")), snd (fst (run true "O")), true)
  /\ exists (new_vertices : list (@vec3 q_scalars))
            (new_triangles : list (nat * nat * nat)),
       mesh_vertices (snd (fst (run true "O"))) = [] ++ new_vertices
       /\ mesh_triangles (snd (fst (run true "O"))) = [] ++ new_triangles
       /\ length new_triangles = 28
       /\ length new_vertices = 3 * 28
       /\ NoDup (flat_map handles new_triangles)
       /\ (forall v, In v (flat_map handles new_triangles)
                     <-> 0 <= v < 0 + 3 * 28).
Proof.
  split; [reflexivity|].
  exact (@triangle_count_and_fresh_vertices q_scalars right_to_left q_geometry
           (test_mesher true) (empty_mesh q_scalars) (text_of "O")
           0%Q 0%Q 1%Q (fst (fst (run true "O"))) (snd (fst (run true "O")))
           eq_refl).
Defined.


(** * Further properties of the mesher *)

(** ** What the tessellator is given over a whole text *)

Section TessTrace.
Context {Sc : Scalars} {Ev : ArgumentOrder} {Ge : Geometry}.

Lemma contour_loop_calls (extrude : float) (cs : list Contour)
    (l : list nat) :
  forall (mesh : SurfaceMesh) (tess : Tessellator),
    snd (fold_left
           (fun (s : SurfaceMesh * Tessellator) index =>
              let (mesh, tess) := s in
              (side_walls (nth index cs empty_contour) extrude mesh,
               tess_caps cs index tess))
           l (mesh, tess))
    = tess ++ flat_map (polygon_calls cs) l.
Proof.
  induction l as [|j l IH]; intros mesh tess; simpl.
  - now rewrite app_nil_r.
  - now rewrite IH, tess_caps_eq, <- app_assoc.
Qed.

Lemma mesh_char_calls (extrude : float) (ch : CharContour)
    (s : SurfaceMesh * Tessellator) :
  snd (mesh_char extrude ch s) = snd s ++ char_calls ch.
Proof.
  destruct s as [mesh tess]. unfold mesh_char, char_calls.
  rewrite for_loop_seq. apply contour_loop_calls.
Qed.

Lemma mesh_chars_calls (extrude : float) (characters : list CharContour) :
  forall s : SurfaceMesh * Tessellator,
    snd (mesh_chars extrude characters s) = snd s ++ text_calls characters.
Proof.
  unfold mesh_chars, text_calls.
  induction characters as [|ch characters IH]; intros s; simpl.
  - now rewrite app_nil_r.
  - now rewrite IH, mesh_char_calls, <- app_assoc.
Qed.

Lemma protocol_app (l1 l2 : list TessCall) : forall phase : TessPhase,
  protocol phase (l1 ++ l2)
  = match protocol phase l1 with
    | Some phase' => protocol phase' l2
    | None => None
    end.
Proof.
  induction l1 as [|c l1 IH]; intros phase; simpl; [reflexivity|].
  destruct (protocol_step phase c); [apply IH|reflexivity].
Qed.

Lemma protocol_vertices (l : list vec2) (rest : list TessCall) :
  protocol InContour
    (map (fun p => add_tess_vertex (vec3_of p (float_of_int 0))) l ++ rest)
  = protocol InContour rest.
Proof. induction l as [|p l IH]; simpl; [reflexivity|exact IH]. Qed.

Lemma protocol_contour_calls (contour : Contour) :
  protocol (InPolygon true) (contour_calls contour)
  = Some (InPolygon false).
Proof.
  unfold contour_calls. cbn [protocol protocol_step].
  now rewrite protocol_vertices.
Qed.

Lemma protocol_holes (ch : list Contour) (l : list nat) :
  protocol (InPolygon false)
    (flat_map (fun j => set_winding_rule ODD
                        :: contour_calls (nth j ch empty_contour)) l)
  = Some (InPolygon false).
Proof.
  induction l as [|j l IH]; [reflexivity|].
  cbn [flat_map].
  change (set_winding_rule ODD :: contour_calls (nth j ch empty_contour))
    with ([set_winding_rule ODD] ++ contour_calls (nth j ch empty_contour)).
  rewrite <- app_assoc, protocol_app. cbn [protocol protocol_step].
  now rewrite protocol_app, protocol_contour_calls.
Qed.

Lemma protocol_polygon_calls (ch : list Contour) (index : nat) :
  protocol Idle (polygon_calls ch index) = Some Idle.
Proof.
  unfold polygon_calls.
  destruct (clockwise (nth index ch empty_contour)); [|reflexivity].
  cbn [app protocol protocol_step].
  now rewrite protocol_app, protocol_contour_calls, protocol_app,
    protocol_holes.
Qed.

Lemma protocol_char_calls (cs : list Contour) (l : list nat) :
  protocol Idle (flat_map (polygon_calls cs) l) = Some Idle.
Proof.
  induction l as [|j l IH]; [reflexivity|].
  cbn [flat_map]. now rewrite protocol_app, protocol_polygon_calls.
Qed.

Lemma protocol_text_calls (characters : list CharContour) :
  protocol Idle (text_calls characters) = Some Idle.
Proof.
  unfold text_calls.
  induction characters as [|ch characters IH]; [reflexivity|].
  cbn [flat_map]. unfold char_calls at 1.
  now rewrite protocol_app, protocol_char_calls.
Qed.

(** X1. Whatever the mesh and the depth, the tessellator that starts
    empty ends with the calls of the characters in text order, and for each
    character the calls of its contours in their order: a polygon for each
    clockwise contour, nothing for the others. *)
Theorem tessellator_receives_text_calls (extrude : float)
    (characters : list CharContour) (mesh : SurfaceMesh) :
  snd (mesh_chars extrude characters (mesh, []))
  = flat_map (fun ch => flat_map (polygon_calls (contours ch))
                                 (seq 0 (length (contours ch))))
             characters.
Proof. now rewrite mesh_chars_calls. Qed.

(** X2. The calls follow the protocol of the tessellator from start to
    end: every polygon that is opened is closed before the next one, every
    contour lies in a polygon and comes after a winding rule was chosen,
    vertices are only added inside a contour, and nothing is left open. *)
Theorem tessellator_protocol_respected (extrude : float)
    (characters : list CharContour) (mesh : SurfaceMesh) :
  protocol Idle (snd (mesh_chars extrude characters (mesh, []))) = Some Idle.
Proof. rewrite mesh_chars_calls. apply protocol_text_calls. Qed.

End TessTrace.

(** ** The faces written to the mesh *)

Section MeshGeometryTheorems.
Context {Sc : Scalars} {Ev : ArgumentOrder} {Ge : Geometry}.

(** X3. The side walls of a contour follow the closed polygon: one wall
    per point, over the edge from that point to the next one, the last
    point being joined to the first.  With [a], [b] the ends of the edge
    at depth zero and [c], [d] the same points at depth [extrude], a wall
    is the two faces [(c, b, a)] and [(c, d, b)].  The triangles are put
    behind those of the mesh, on six new vertices per wall, in whichever
    order the vertices of a triangle are added. *)
Theorem side_walls_follow_closed_polygon (contour : Contour)
    (extrude : float) (mesh : SurfaceMesh) :
  let mesh' := side_walls contour extrude mesh in
  (exists vs : list vec3,
      mesh_vertices mesh' = mesh_vertices mesh ++ vs
      /\ length vs = 6 * length (pts contour))
  /\ (exists ts : list (nat * nat * nat),
        mesh_triangles mesh' = mesh_triangles mesh ++ ts
        /\ length ts = 2 * length (pts contour))
  /\ written_faces mesh mesh'
     = flat_map
         (fun ab : vec2 * vec2 =>
            let a := vec3_of (fst ab) (float_of_int 0) in
            let b := vec3_of (snd ab) (float_of_int 0) in
            let c := vec3_add a (float_of_int 0, float_of_int 0, extrude) in
            let d := vec3_add b (float_of_int 0, float_of_int 0, extrude) in
            [(c, b, a); (c, d, b)])
         (combine (pts contour) (rotl (pts contour))).
Proof.
  cbv zeta.
  pose proof (side_walls_writes contour extrude mesh) as Hw.
  destruct (writes_fresh Hw) as (vs & ts & Hv & Ht & Hlt & Hlv & _).
  rewrite length_contour_walls in *.
  split; [exists vs; split; [exact Hv|lia]|].
  split; [exists ts; split; [exact Ht|exact Hlt]|].
  apply (writes_written Hw).
Qed.

(** X4. Each triangle [(a, b, c)] of the tessellator gives two faces: the
    bottom face on the corners [a], [b], [c] as the tessellator placed
    them, and the top face on the same corners raised by the depth and
    taken in the opposite order [c], [b], [a].  The triangles are put
    behind those of the mesh, on six new vertices per pair. *)
Theorem caps_are_mirrored (tess : Tessellator) (extrude : float)
    (mesh : SurfaceMesh) :
  let mesh' := emit_caps tess extrude mesh in
  (exists vs : list vec3,
      mesh_vertices mesh' = mesh_vertices mesh ++ vs
      /\ length vs = 6 * length (tess_triangles tess))
  /\ (exists ts : list (nat * nat * nat),
        mesh_triangles mesh' = mesh_triangles mesh ++ ts
        /\ length ts = 2 * length (tess_triangles tess))
  /\ written_faces mesh mesh'
     = flat_map
         (fun t : nat * nat * nat =>
            let va := nth (fst (fst t)) (tess_vertices tess) zero3 in
            let vb := nth (snd (fst t)) (tess_vertices tess) zero3 in
            let vc := nth (snd t) (tess_vertices tess) zero3 in
            [(va, vb, vc);
             (lifted extrude vc, lifted extrude vb, lifted extrude va)])
         (tess_triangles tess).
Proof.
  cbv zeta.
  pose proof (emit_caps_writes tess extrude mesh) as Hw.
  destruct (writes_fresh Hw) as (vs & ts & Hv & Ht & Hlt & Hlv & _).
  rewrite length_text_caps in *.
  split; [exists vs; split; [exact Hv|lia]|].
  split; [exists ts; split; [exact Ht|exact Hlt]|].
  rewrite (writes_written Hw). unfold text_caps.
  apply flat_map_ext. now intros [[a b] c].
Qed.

(** X5. A successful [generate] leaves the mesh it was given in front and
    writes behind it, in this order: the walls of every contour of every
    character, in text and contour order, then the caps of the triangles
    the tessellator made of the calls of the whole text.  The faces
    written depend on the layout and the depth only, not on the mesh nor
    on the order in which the vertices of a triangle are added. *)
Theorem generate_geometry (tm : TextMesher) (mesh : SurfaceMesh)
    (text : list ascii) (x y extrude : float) :
  ready_ tm = true ->
  text <> [] ->
  let characters := snd (generate_contours tm text x y []) in
  let mesh' := snd (fst (generate tm mesh text x y extrude)) in
  (exists vs : list vec3, mesh_vertices mesh' = mesh_vertices mesh ++ vs)
  /\ (exists ts : list (nat * nat * nat),
        mesh_triangles mesh' = mesh_triangles mesh ++ ts)
  /\ written_faces mesh mesh'
     = text_walls extrude characters
       ++ text_caps (text_calls characters) extrude.
Proof.
  intros Hr Htext. cbv zeta.
  pose proof (@generate_writes _ _ _ tm mesh text x y extrude Hr Htext)
    as Hw.
  cbv zeta in Hw.
  rewrite (mesh_chars_calls extrude _ (mesh, [])) in Hw. cbn [snd app] in Hw.
  destruct (writes_fresh Hw) as (vs & ts & Hv & Ht & _).
  split; [now exists vs|]. split; [now exists ts|].
  apply (writes_written Hw).
Qed.

End MeshGeometryTheorems.

(** ** The layout across calls and across characters *)

Section LayoutFacts.
Context {Sc : Scalars} {Ev : ArgumentOrder} {Ge : Geometry}.

Lemma same_font_refl (tm : TextMesher) : same_font tm tm.
Proof. repeat split. Qed.

Lemma same_font_trans (a b c : TextMesher) :
  same_font a b -> same_font b c -> same_font a c.
Proof.
  intros (H1 & H2 & H3) (H4 & H5 & H6).
  repeat split; congruence.
Qed.

Lemma same_font_reset (a b : TextMesher) :
  same_font a b -> reset_pen a = reset_pen b.
Proof.
  destruct a, b. intros (H1 & H2 & H3). simpl in *. now subst.
Qed.

Lemma same_font_char (tm : TextMesher) (ch : ascii) (x y : float) :
  same_font tm (fst (fst (generate_contours_char tm ch x y))).
Proof.
  destruct (generate_contours_char_face tm ch x y) as (H1 & H2 & H3).
  repeat split; auto.
Qed.

Lemma same_font_layout (y : float) (text : list ascii) :
  forall (tm : TextMesher) (x : float) (out : list CharContour),
    same_font tm (fst (fst (layout_loop y text (tm, x, out)))).
Proof.
  induction text as [|c text IH]; intros tm x out; simpl.
  - apply same_font_refl.
  - pose proof (same_font_char tm c x y) as Hc.
    destruct (generate_contours_char tm c x y) as [[tm1 cc] x1].
    simpl in Hc. eapply same_font_trans; [exact Hc|apply IH].
Qed.

Lemma same_font_generate_contours (tm : TextMesher) (text : list ascii)
    (x y : float) (out : list CharContour) :
  same_font tm (fst (generate_contours tm text x y out)).
Proof.
  destruct (ready_ tm) eqn:Hr.
  - rewrite generate_contours_ready by assumption. simpl.
    eapply same_font_trans; [|apply same_font_layout].
    repeat split.
  - unfold generate_contours. rewrite Hr. apply same_font_refl.
Qed.

Lemma generate_contours_same_font (a b : TextMesher) (text : list ascii)
    (x y : float) (out : list CharContour) :
  same_font a b ->
  snd (generate_contours a text x y out)
  = snd (generate_contours b text x y out).
Proof.
  intros Hs. pose proof (same_font_reset Hs) as Hreset.
  destruct Hs as (_ & _ & Hr).
  unfold generate_contours. rewrite <- Hr, Hreset.
  destruct (ready_ a); simpl; [|reflexivity].
  now destruct (for_loop _ _ _) as [[tm' x'] out'].
Qed.

Lemma generate_same_font (a b : TextMesher) (mesh : SurfaceMesh)
    (text : list ascii) (x y extrude : float) :
  same_font a b ->
  snd (fst (generate a mesh text x y extrude))
  = snd (fst (generate b mesh text x y extrude))
  /\ snd (generate a mesh text x y extrude)
     = snd (generate b mesh text x y extrude).
Proof.
  intros Hs. pose proof (generate_contours_same_font text x y [] Hs) as Hc.
  destruct Hs as (_ & _ & Hr).
  unfold generate. rewrite <- Hr.
  destruct (ready_ a); simpl; [|auto].
  destruct (generate_contours a text x y []) as [a' ca].
  destruct (generate_contours b text x y []) as [b' cb].
  simpl in Hc. subst cb.
  destruct ca as [|c ca]; [auto|].
  destruct (mesh_chars extrude (c :: ca) (mesh, [])) as [m t]. auto.
Qed.

Lemma same_font_generate (tm : TextMesher) (mesh : SurfaceMesh)
    (text : list ascii) (x y extrude : float) :
  same_font tm (fst (fst (generate tm mesh text x y extrude))).
Proof.
  pose proof (same_font_generate_contours tm text x y []) as Hs.
  unfold generate.
  destruct (ready_ tm); simpl; [|apply same_font_refl].
  destruct (generate_contours tm text x y []) as [tm1 cs]. simpl in Hs.
  destruct cs as [|c cs]; [exact Hs|].
  now destruct (mesh_chars extrude (c :: cs) (mesh, [])).
Qed.

(** The glyph index stored by the previous character is overwritten
    before it is read. *)
Lemma generate_contours_char_cur (tm : TextMesher) (v : N) (ch : ascii)
    (x y : float) :
  generate_contours_char (set_cur_char_index tm v) ch x y
  = generate_contours_char tm ch x y.
Proof. reflexivity. Qed.

Lemma layout_loop_cur (y : float) (text : list ascii) (tm : TextMesher)
    (v : N) (x : float) (out : list CharContour) :
  snd (layout_loop y text (set_cur_char_index tm v, x, out))
  = snd (layout_loop y text (tm, x, out)).
Proof.
  destruct text as [|c text]; [reflexivity|].
  simpl. now rewrite generate_contours_char_cur.
Qed.

Lemma placed_outline_same_font (a b : TextMesher) (ch : ascii)
    (xc y : float) :
  same_font a b -> placed_outline a ch xc y = placed_outline b ch xc y.
Proof.
  intros (H1 & H2 & _). unfold placed_outline. now rewrite H1, H2.
Qed.

Lemma generate_contours_char_outline (tm : TextMesher) (ch : ascii)
    (x y : float) :
  exists xc : float,
    contours (snd (fst (generate_contours_char tm ch x y)))
    = placed_outline tm ch xc y.
Proof.
  unfold generate_contours_char, placed_outline. simpl.
  destruct (FT_Load_Glyph _ _) as [slot|]; [|now exists x].
  destruct (get_glyph_ok slot); [|now exists x].
  destruct (format_is_outline slot); [|now exists x].
  simpl. eexists. reflexivity.
Qed.

Lemma layout_loop_outlines (tm0 : TextMesher) (y : float)
    (text : list ascii) :
  forall (tm : TextMesher) (x : float),
    same_font tm0 tm ->
    Forall (fun cc => exists xc : float,
                contours cc = placed_outline tm0 (character cc) xc y)
           (snd (layout_loop y text (tm, x, []))).
Proof.
  induction text as [|c text IH]; intros tm x Hs; simpl; [constructor|].
  pose proof (generate_contours_char_outline tm c x y) as [xc Hxc].
  pose proof (generate_contours_char_character tm c x y) as Hch.
  pose proof (same_font_char tm c x y) as Hs1.
  destruct (generate_contours_char tm c x y) as [[tm1 cc] x1].
  simpl in *. rewrite layout_loop_frame. simpl. constructor.
  - exists xc. now rewrite Hch, Hxc, (placed_outline_same_font c xc y Hs).
  - apply IH. eapply same_font_trans; eassumption.
Qed.

End LayoutFacts.

Section LayoutTheorems.
Context {Sc : Scalars} {Ev : ArgumentOrder} {Ge : Geometry}.

(** X6. The layout of a text does not depend on what the mesher laid out
    before: after any earlier call, with any text, position and output
    vector, the same call gives the same entries. *)
Theorem layout_independent_of_history (tm : TextMesher)
    (text0 : list ascii) (x0 y0 : float) (out0 : list CharContour)
    (text : list ascii) (x y : float) (out : list CharContour) :
  snd (generate_contours (fst (generate_contours tm text0 x0 y0 out0))
                         text x y out)
  = snd (generate_contours tm text x y out).
Proof.
  symmetry. apply generate_contours_same_font.
  apply same_font_generate_contours.
Qed.

(** X7. Neither does mesh generation: after any earlier [generate], the
    same call on the same mesh gives the same mesh and the same flag. *)
Theorem generate_independent_of_history (tm : TextMesher)
    (mesh0 : SurfaceMesh) (text0 : list ascii) (x0 y0 extrude0 : float)
    (mesh : SurfaceMesh) (text : list ascii) (x y extrude : float) :
  let tm' := fst (fst (generate tm mesh0 text0 x0 y0 extrude0)) in
  snd (fst (generate tm' mesh text x y extrude))
  = snd (fst (generate tm mesh text x y extrude))
  /\ snd (generate tm' mesh text x y extrude)
     = snd (generate tm mesh text x y extrude).
Proof.
  cbv zeta.
  pose proof (same_font_generate tm mesh0 text0 x0 y0 extrude0) as Hs.
  destruct (generate_same_font mesh text x y extrude Hs) as [H1 H2].
  split; congruence.
Qed.

(** X8. Every entry of a layout is the outline of its character as the
    face and the bezier steps of the mesher give it, moved to some pen
    position [xc] on the line [y] of the call, or no contour at all when
    the glyph cannot be used: the layout never moves a glyph off the line
    and never alters its contours otherwise. *)
Theorem entries_are_placed_outlines (tm : TextMesher) (text : list ascii)
    (x y : float) :
  Forall (fun cc => exists xc : float,
              contours cc = placed_outline tm (character cc) xc y)
         (snd (generate_contours tm text x y [])).
Proof.
  destruct (ready_ tm) eqn:Hr.
  - rewrite generate_contours_ready by assumption. simpl.
    apply layout_loop_outlines. repeat split.
  - unfold generate_contours. rewrite Hr. constructor.
Qed.

(** X9. A character whose glyph cannot be used does not disturb its
    neighbours: the layout of a text with such a character is the layout
    of the text without it, with an empty entry put in at its place. *)
Theorem failed_glyph_can_be_left_out (tm : TextMesher) (ch : ascii)
    (pre post : list ascii) (x y : float) :
  glyph_fails (font_face_ tm) ch = true ->
  ready_ tm = true ->
  let without := snd (generate_contours tm (pre ++ post) x y []) in
  snd (generate_contours tm (pre ++ ch :: post) x y [])
  = firstn (length pre) without
    ++ {| character := ch; contours := [] |}
    :: skipn (length pre) without.
Proof.
  intros Hf Hr. cbv zeta.
  rewrite !generate_contours_ready by assumption. cbn [snd].
  rewrite !layout_loop_app.
  pose proof (layout_loop_characters y pre (reset_pen tm) x) as Hchars.
  pose proof (layout_loop_face y pre (reset_pen tm) x []) as Hface.
  destruct (layout_loop y pre (reset_pen tm, x, [])) as [[tm1 x1] out1].
  simpl in Hchars, Hface.
  assert (Hlen : length out1 = length pre)
    by (now rewrite <- Hchars, length_map).
  rewrite (layout_loop_frame y post tm1 x1 out1). cbn [snd].
  rewrite <- Hlen, firstn_app, skipn_app, Nat.sub_diag, firstn_all,
    skipn_all.
  cbn [firstn skipn app]. rewrite app_nil_r.
  unfold layout_loop at 1. cbn [fold_left layout_char].
  rewrite generate_contours_char_fails by (now rewrite Hface).
  fold (layout_loop y post
          (set_cur_char_index tm1
             (FT_Get_Char_Index (font_face_ tm1) ch), x1,
           out1 ++ [{| character := ch; contours := [] |}])).
  rewrite layout_loop_cur, layout_loop_frame. cbn [snd].
  now rewrite <- app_assoc.
Qed.

End LayoutTheorems.

(** ** The overload that makes its own mesh, and the holes *)

Section NewMesh.
Context {Sc : Scalars} {Ev : ArgumentOrder} {Ge : Geometry}.

(** X10. The overload without a mesh returns a mesh exactly when the
    mesher is ready and the text is not empty, the null pointer otherwise.
    The mesh it returns is the one [generate] builds from an empty mesh;
    it has three vertices per triangle and every vertex is the corner of
    one triangle and of no other. *)
Theorem generate_new_result (tm : TextMesher) (text : list ascii)
    (x y extrude : float) :
  (snd (generate_new tm text x y extrude) = None
   <-> ready_ tm = false \/ text = [])
  /\ (forall mesh : SurfaceMesh,
        snd (generate_new tm text x y extrude) = Some mesh ->
        mesh = snd (fst (generate tm {| mesh_vertices := [];
                                        mesh_triangles := [] |}
                                  text x y extrude))
        /\ length (mesh_vertices mesh) = 3 * length (mesh_triangles mesh)
        /\ Permutation (flat_map handles (mesh_triangles mesh))
                       (seq 0 (length (mesh_vertices mesh)))).
Proof.
  pose proof (generate_flag tm {| mesh_vertices := []; mesh_triangles := [] |}
                text x y extrude) as Hflag.
  unfold generate_new.
  destruct (ready_ tm) eqn:Hr; simpl.
  - destruct (generate tm {| mesh_vertices := []; mesh_triangles := [] |}
                       text x y extrude) as [[tm1 m] b] eqn:Hg.
    simpl in Hflag. destruct b; simpl.
    + destruct Hflag as [Hflag _]. destruct (Hflag eq_refl) as [_ Htext].
      split.
      * split; [discriminate|]. intros [H|H]; [discriminate|contradiction].
      * intros mesh [= <-].
        pose proof (@generate_writes _ _ _ tm
                      {| mesh_vertices := []; mesh_triangles := [] |}
                      text x y extrude Hr Htext) as Hw.
        cbv zeta in Hw. rewrite Hg in Hw. cbn [fst snd] in Hw.
        destruct Hw as (vs & ts & Hv & Ht & Hl & Hp & Hc).
        cbn [mesh_vertices mesh_triangles app length] in *.
        assert (Hlen : length ts
                       = length (text_walls extrude
                                   (snd (generate_contours tm text x y []))
                                 ++ text_caps
                                      (snd (mesh_chars extrude
                                              (snd (generate_contours
                                                      tm text x y []))
                                              ({| mesh_vertices := [];
                                                  mesh_triangles := [] |},
                                               []))) extrude))
          by (now rewrite <- Hc, length_map).
        rewrite Hv, Ht, Hl, Hlen.
        split; [reflexivity|]. split; [reflexivity|exact Hp].
    + split; [|discriminate]. split; [|reflexivity]. intros _.
      right. destruct text as [|c text]; [reflexivity|].
      destruct Hflag as [_ Hflag].
      assert (H : false = true)
        by (apply Hflag; split; [reflexivity|discriminate]).
      discriminate.
  - split; [|discriminate]. split; [auto|reflexivity].
Qed.

Lemma filter_seq_increasing (f : nat -> bool) (n : nat) :
  forall (start : nat) (l1 : list nat) (j : nat) (l2 : list nat) (k : nat)
         (l3 : list nat),
    filter f (seq start n) = l1 ++ j :: l2 ++ k :: l3 -> j < k.
Proof.
  induction n as [|n IH]; intros start l1 j l2 k l3 Heq.
  - destruct l1; discriminate.
  - cbn [seq filter] in Heq. destruct (f start).
    + destruct l1 as [|a l1].
      * injection Heq as Hj Hrest. subst j.
        assert (Hin : In k (filter f (seq (S start) n)))
          by (rewrite Hrest; apply in_or_app; right; now left).
        apply filter_In in Hin. destruct Hin as [Hin _].
        apply in_seq in Hin. lia.
      * injection Heq as _ Hrest. exact (IH _ _ _ _ _ _ Hrest).
    + exact (IH _ _ _ _ _ _ Heq).
Qed.

(** X11. The holes of a contour are contours of the same character at
    other positions, each listed once and in the order of the character;
    they are counter-clockwise and the contour itself is clockwise. *)
Theorem holes_are_distinct_inner_contours (ch : list Contour) (i : nat) :
  NoDup (holes_of ch i)
  /\ (forall j, In j (holes_of ch i) ->
                j < length ch /\ j <> i
                /\ clockwise (nth i ch empty_contour) = true
                /\ clockwise (nth j ch empty_contour) = false)
  /\ (forall l1 j l2 k l3,
        holes_of ch i = l1 ++ j :: l2 ++ k :: l3 -> j < k).
Proof.
  unfold holes_of.
  destruct (clockwise (nth i ch empty_contour)) eqn:Hcw.
  - split; [apply NoDup_filter, seq_NoDup|]. split.
    + intros j Hj. apply filter_In in Hj. destruct Hj as [Hin Ht].
      apply in_seq in Hin. apply hole_test_spec in Ht.
      destruct Ht as (Hne & Hc & _). rewrite Hcw in Hc.
      repeat split; [lia|assumption|].
      destruct (clockwise (nth j ch empty_contour)); congruence.
    + intros l1 j l2 k l3 Heq.
      eapply filter_seq_increasing. exact Heq.
  - split; [constructor|]. split; [intros j []|].
    intros [|a l1] j l2 k l3 H; discriminate.
Qed.

End NewMesh.

(** ** The font resource *)

Section LifecycleFacts.
Context {Sc : Scalars}.
Variable Library : Type.

Lemma resource_protocol_app (l1 l2 : list (FTCall Library)) :
  forall phase : FTPhase,
    resource_protocol phase (l1 ++ l2)
    = match resource_protocol phase l1 with
      | Some phase' => resource_protocol phase' l2
      | None => None
      end.
Proof.
  induction l1 as [|c l1 IH]; intros phase; simpl; [reflexivity|].
  destruct (resource_step phase c); [apply IH|reflexivity].
Qed.

Lemma cleanup_tracked (p0 : FTPhase)
    (s : FontObject Library * list (FTCall Library)) :
  tracked p0 s ->
  resource_protocol p0 (snd (cleanup s)) = Some NoLibrary
  /\ font_library_ (fst (cleanup s)) = None
  /\ face_handle (fst (cleanup s)) = None.
Proof.
  destruct s as [obj log]. intros (phase & Hlog & Hphase).
  unfold cleanup. cbn [fst snd] in *.
  split; [|split; reflexivity].
  rewrite <- app_assoc, resource_protocol_app, Hlog.
  unfold phase_of in Hphase.
  destruct (font_library_ obj), (face_handle obj);
    inversion Hphase; subst; reflexivity.
Qed.

Lemma set_font_tracked (ft : FreeType Library) (p0 : FTPhase)
    (s : FontObject Library * list (FTCall Library))
    (font_file : string) (font_height : Z) :
  tracked p0 s -> tracked p0 (set_font ft s font_file font_height).
Proof.
  intros Ht. destruct (cleanup_tracked Ht) as (Hlog & Hl & Hf).
  unfold set_font.
  destruct (cleanup s) as [obj log]. cbn [fst snd] in *.
  unfold tracked, phase_of.
  destruct (FT_Init_FreeType ft) as [library|]; cbn [fst snd].
  - destruct (FT_New_Face ft library font_file) as [face|]; cbn [fst snd].
    + destruct (FT_Set_Char_Size ft face _ _ _ _) as [sized|];
        cbn [fst snd set_ready set_handles font_library_ face_handle];
        exists LibraryAndFace;
        rewrite !resource_protocol_app, Hlog; split; reflexivity.
    + cbn [set_ready set_handles font_library_ face_handle].
      rewrite Hf. exists LibraryOnly.
      rewrite !resource_protocol_app, Hlog. split; reflexivity.
  - cbn [set_ready font_library_ face_handle]. rewrite Hl, Hf.
    exists NoLibrary. rewrite resource_protocol_app, Hlog.
    split; reflexivity.
Qed.

Lemma construct_tracked (ft : FreeType Library) (indeterminate : bool)
    (font_file : string) (font_height : Z) :
  tracked NoLibrary (construct ft indeterminate font_file font_height).
Proof.
  unfold construct. apply set_font_tracked.
  exists NoLibrary. split; reflexivity.
Qed.

Lemma later_tracked (p0 : FTPhase)
    (later : list (FreeType Library * string * Z)) :
  forall s : FontObject Library * list (FTCall Library),
    tracked p0 s ->
    tracked p0
      (fold_left (fun s call => set_font (fst (fst call)) s (snd (fst call))
                                         (snd call)) later s).
Proof.
  induction later as [|call later IH]; intros s Ht; simpl; [exact Ht|].
  apply IH. now apply set_font_tracked.
Qed.

Lemma to_int_fits (z : Z) :
  (-2147483648 <= z < 2147483648)%Z -> to_int z = z.
Proof.
  intros Hz. unfold to_int. rewrite Z.mod_small by lia. lia.
Qed.

(** X12. For a [font_height] whose product with 64 fits an [int] (from
    [-2^25] up to, not including, [2^25]), [set_font] leaves the mesher
    ready exactly when the library could be initialised, the font file
    gave a face and the face took the size of [font_height] points at 96
    dpi; the handles then are that library and that face.  The outcome
    does not depend on the flag found (which the constructor leaves
    without a value), and the bezier steps and the pen state are left
    alone. *)
Theorem set_font_ready_iff (ft : FreeType Library)
    (s : FontObject Library * list (FTCall Library))
    (font_file : string) (font_height : Z) :
  (-33554432 <= font_height < 33554432)%Z ->
  let obj' := fst (set_font ft s font_file font_height) in
  (ready obj' = true
   <-> exists (library : Library) (face sized : Face),
         FT_Init_FreeType ft = Some library
         /\ FT_New_Face ft library font_file = Some face
         /\ FT_Set_Char_Size ft face (font_height * 64) (font_height * 64)
                             96 96 = Some sized
         /\ font_library_ obj' = Some library
         /\ face_handle obj' = Some sized)
  /\ (forall v : bool,
        set_font ft (set_ready (fst s) v, snd s) font_file font_height
        = set_font ft s font_file font_height)
  /\ bezier_steps obj' = bezier_steps (fst s)
  /\ prev_char_index obj' = prev_char_index (fst s)
  /\ cur_char_index obj' = cur_char_index (fst s)
  /\ prev_rsb_delta obj' = prev_rsb_delta (fst s).
Proof.
  intros Hrange. destruct s as [obj log]. cbv zeta.
  unfold set_font, cleanup. cbn [fst snd].
  change (font_height * SCALE_TO_F26DOT6)%Z with (font_height * 64)%Z.
  change RESOLUTION with 96%Z.
  rewrite (@to_int_fits (font_height * 64)%Z) by lia.
  destruct (FT_Init_FreeType ft) as [library|] eqn:Hi.
  - destruct (FT_New_Face ft library font_file) as [face|] eqn:Hn.
    + destruct (FT_Set_Char_Size ft face (font_height * 64)
                                 (font_height * 64) 96 96)
        as [sized|] eqn:Hs; cbn.
      * split; [|repeat split; reflexivity].
        split; [|reflexivity]. intros _.
        exists library, face, sized. rewrite Hn, Hs. auto.
      * split; [|repeat split; reflexivity].
        split; [discriminate|].
        intros (l' & f' & s' & Hl' & Hf' & Hs' & _).
        injection Hl' as <-. rewrite Hn in Hf'. injection Hf' as <-.
        rewrite Hs in Hs'. discriminate.
    + cbn. split; [|repeat split; reflexivity].
      split; [discriminate|].
      intros (l' & f' & s' & Hl' & Hf' & _).
      injection Hl' as <-. rewrite Hn in Hf'. discriminate.
  - cbn. split; [|repeat split; reflexivity].
    split; [discriminate|]. intros (l' & f' & s' & Hl' & _). discriminate.
Qed.

(** X13. Over the whole life of a mesher, from the constructor through
    any number of [set_font] calls to the destructor, and whichever calls
    fail, FreeType is used as it asks: a library is initialised only when
    none is held, a face is made from the held library and sized while it
    is held, face and library are released once, the face first, and at
    the end nothing is held. *)
Theorem font_resource_protocol (ft : FreeType Library)
    (indeterminate : bool) (font_file : string) (font_height : Z)
    (later : list (FreeType Library * string * Z)) :
  let s := whole_life ft indeterminate font_file font_height later in
  resource_protocol NoLibrary (snd s) = Some NoLibrary
  /\ font_library_ (fst s) = None
  /\ face_handle (fst s) = None.
Proof.
  cbv zeta. unfold whole_life, destruct_object.
  apply cleanup_tracked, later_tracked, construct_tracked.
Qed.

(** X14. After [set_font], in every outcome, a face is held only along
    with its library, and a ready mesher holds a face: the operations
    that pass the ready check have a face to work on. *)
Theorem ready_mesher_has_a_face (ft : FreeType Library)
    (s : FontObject Library * list (FTCall Library))
    (font_file : string) (font_height : Z) :
  let obj' := fst (set_font ft s font_file font_height) in
  (face_handle obj' <> None -> font_library_ obj' <> None)
  /\ (ready obj' = true ->
      exists tm : TextMesher,
        mesher_of obj' = Some tm
        /\ ready_ tm = true
        /\ bezier_steps_ tm = bezier_steps (fst s)).
Proof.
  destruct s as [obj log]. cbv zeta.
  unfold set_font, cleanup, mesher_of. cbn [fst snd].
  destruct (FT_Init_FreeType ft) as [library|].
  - destruct (FT_New_Face ft library font_file) as [face|].
    + destruct (FT_Set_Char_Size ft face _ _ _ _) as [sized|]; cbn.
      * split; [discriminate|]. intros _. eexists. repeat split.
      * split; [discriminate|]. discriminate.
    + cbn. split; [discriminate|]. discriminate.
  - cbn. split; [now intros H|discriminate].
Qed.

End LifecycleFacts.

(** ** Calling [generate] again on the same mesh *)

Section Twice.
Context {Sc : Scalars} {Ev : ArgumentOrder} {Ge : Geometry}.

Lemma generate_faces (tm : TextMesher) (mesh : SurfaceMesh)
    (text : list ascii) (x y extrude : float) :
  ready_ tm = true ->
  text <> [] ->
  let characters := snd (generate_contours tm text x y []) in
  written_faces mesh (snd (fst (generate tm mesh text x y extrude)))
  = text_walls extrude characters
    ++ text_caps (text_calls characters) extrude.
Proof.
  intros Hr Htext. cbv zeta.
  rewrite (writes_written
             (@generate_writes _ _ _ tm mesh text x y extrude Hr Htext)).
  now rewrite (mesh_chars_calls extrude _ (mesh, [])).
Qed.

(** X15. Nothing is merged or cleared between calls: a second [generate]
    with the same arguments on the mesh the first one left succeeds as
    well and writes the same faces once more, behind those of the first
    call. *)
Theorem generate_twice_doubles (tm : TextMesher) (mesh : SurfaceMesh)
    (text : list ascii) (x y extrude : float) :
  ready_ tm = true ->
  text <> [] ->
  let first := generate tm mesh text x y extrude in
  let second :=
    generate (fst (fst first)) (snd (fst first)) text x y extrude in
  let characters := snd (generate_contours tm text x y []) in
  let written := text_walls extrude characters
                 ++ text_caps (text_calls characters) extrude in
  snd first = true
  /\ snd second = true
  /\ written_faces mesh (snd (fst first)) = written
  /\ written_faces (snd (fst first)) (snd (fst second)) = written
  /\ length (mesh_triangles (snd (fst second)))
     = length (mesh_triangles mesh) + 2 * length written.
Proof.
  intros Hr Htext. cbv zeta.
  pose proof (same_font_generate tm mesh text x y extrude) as Hs.
  pose proof (generate_contours_same_font text x y [] Hs) as Hc.
  set (tm1 := fst (fst (generate tm mesh text x y extrude))) in *.
  set (m1 := snd (fst (generate tm mesh text x y extrude))).
  assert (Hr1 : ready_ tm1 = true)
    by (destruct Hs as (_ & _ & Hrr); now rewrite <- Hrr).
  assert (H1 : written_faces mesh m1
               = text_walls extrude (snd (generate_contours tm text x y []))
                 ++ text_caps
                      (text_calls (snd (generate_contours tm text x y [])))
                      extrude)
    by (apply generate_faces; assumption).
  assert (H2 : written_faces m1
                 (snd (fst (generate tm1 m1 text x y extrude)))
               = text_walls extrude (snd (generate_contours tm text x y []))
                 ++ text_caps
                      (text_calls (snd (generate_contours tm text x y [])))
                      extrude)
    by (rewrite Hc; apply generate_faces; assumption).
  split; [apply generate_flag; auto|].
  split; [apply generate_flag; auto|].
  split; [exact H1|]. split; [exact H2|].
  pose proof (@generate_writes _ _ _ tm mesh text x y extrude Hr Htext)
    as Hw1.
  pose proof (@generate_writes _ _ _ tm1 m1 text x y extrude Hr1 Htext)
    as Hw2.
  cbv zeta in Hw1, Hw2. fold m1 in Hw1.
  destruct (writes_fresh Hw1) as (vs1 & ts1 & _ & Ht1 & Hlt1 & _).
  destruct (writes_fresh Hw2) as (vs2 & ts2 & _ & Ht2 & Hlt2 & _).
  rewrite <- (writes_written Hw1), H1 in Hlt1.
  rewrite <- (writes_written Hw2), H2 in Hlt2.
  rewrite Ht2, Ht1, !length_app, Hlt1, Hlt2, !length_app. lia.
Qed.

End Twice.

(** ** The further theorems at concrete inputs *)

Lemma generate_geometry_at_O :
  ready_ (test_mesher true) = true
  /\ text_of "O" <> []
  /\ ((exists vs : list (@vec3 q_scalars),
         mesh_vertices (snd (fst (run true "O"))) = [] ++ vs)
      /\ (exists ts : list (nat * nat * nat),
            mesh_triangles (snd (fst (run true "O"))) = [] ++ ts)
      /\ written_faces (empty_mesh q_scalars) (snd (fst (run true "O")))
         = @text_walls q_scalars 1%Q (layout_of "O")
           ++ @text_caps q_scalars q_geometry
                (@text_calls q_scalars q_geometry (layout_of "O")) 1%Q).
Proof.
  split; [reflexivity|]. split; [discriminate|].
  apply (@generate_geometry q_scalars right_to_left q_geometry
           (test_mesher true) (empty_mesh q_scalars) (text_of "O")
           0%Q 0%Q 1%Q).
  - reflexivity.
  - discriminate.
Defined.

Lemma failed_glyph_can_be_left_out_at_question_mark :
  glyph_fails (font_face_ (test_mesher true)) "?" = true
  /\ ready_ (test_mesher true) = true
  /\ layout_of "O?I"
     = firstn 1 (layout_of "OI")
       ++ @Build_CharContour q_scalars "?" []
       :: skipn 1 (layout_of "OI").
Proof.
  split; [reflexivity|]. split; [reflexivity|].
  apply (@failed_glyph_can_be_left_out q_scalars (test_mesher true) "?"
           (text_of "O") (text_of "I") 0%Q 0%Q); reflexivity.
Defined.

Lemma generate_twice_doubles_at_I :
  ready_ (test_mesher true) = true
  /\ text_of "I" <> []
  /\ (snd (run true "I") = true
      /\ snd (@generate q_scalars right_to_left q_geometry
                        (fst (fst (run true "I")))
                        (snd (fst (run true "I"))) (text_of "I")
                        0%Q 0%Q 1%Q) = true
      /\ written_faces (empty_mesh q_scalars) (snd (fst (run true "I")))
         = @text_walls q_scalars 1%Q (layout_of "I")
           ++ @text_caps q_scalars q_geometry
                (@text_calls q_scalars q_geometry (layout_of "I")) 1%Q
      /\ written_faces
           (snd (fst (run true "I")))
           (snd (fst (@generate q_scalars right_to_left q_geometry
                        (fst (fst (run true "I")))
                        (snd (fst (run true "I"))) (text_of "I")
                        0%Q 0%Q 1%Q)))
         = @text_walls q_scalars 1%Q (layout_of "I")
           ++ @text_caps q_scalars q_geometry
                (@text_calls q_scalars q_geometry (layout_of "I")) 1%Q
      /\ length (mesh_triangles
                   (snd (fst (@generate q_scalars right_to_left q_geometry
                                (fst (fst (run true "I")))
                                (snd (fst (run true "I"))) (text_of "I")
                                0%Q 0%Q 1%Q))))
         = length (mesh_triangles (empty_mesh q_scalars))
           + 2 * length (@text_walls q_scalars 1%Q (layout_of "I")
                         ++ @text_caps q_scalars q_geometry
                              (@text_calls q_scalars q_geometry
                                 (layout_of "I")) 1%Q)).
Proof.
  split; [reflexivity|]. split; [discriminate|].
  apply (@generate_twice_doubles q_scalars right_to_left q_geometry
           (test_mesher true) (empty_mesh q_scalars) (text_of "I")
           0%Q 0%Q 1%Q).
  - reflexivity.
  - discriminate.
Defined.

Lemma set_font_ready_iff_at_12_points :
  (-33554432 <= 12 < 33554432)%Z
  /\ ((ready (fst (@set_font q_scalars unit obliging_freetype
                     constructed_at_10
                     "font.ttf" 12)) = true
       <-> exists (library : unit) (face sized : @Face q_scalars),
             FT_Init_FreeType obliging_freetype = Some library
             /\ FT_New_Face obliging_freetype library "font.ttf" = Some face
             /\ FT_Set_Char_Size obliging_freetype face (12 * 64) (12 * 64)
                                 96 96 = Some sized
             /\ font_library_
                  (fst (@set_font q_scalars unit obliging_freetype
                          constructed_at_10
                          "font.ttf" 12)) = Some library
             /\ face_handle
                  (fst (@set_font q_scalars unit obliging_freetype
                          constructed_at_10
                          "font.ttf" 12)) = Some sized)
      /\ (forall v : bool,
            @set_font q_scalars unit obliging_freetype
              (set_ready
                 (fst constructed_at_10) v,
               snd constructed_at_10)
              "font.ttf" 12
            = @set_font q_scalars unit obliging_freetype
                constructed_at_10
                "font.ttf" 12)
      /\ bezier_steps
           (fst (@set_font q_scalars unit obliging_freetype
                   constructed_at_10
                   "font.ttf" 12))
         = bezier_steps
             (fst constructed_at_10)
      /\ prev_char_index
           (fst (@set_font q_scalars unit obliging_freetype
                   constructed_at_10
                   "font.ttf" 12))
         = prev_char_index
             (fst constructed_at_10)
      /\ cur_char_index
           (fst (@set_font q_scalars unit obliging_freetype
                   constructed_at_10
                   "font.ttf" 12))
         = cur_char_index
             (fst constructed_at_10)
      /\ prev_rsb_delta
           (fst (@set_font q_scalars unit obliging_freetype
                   constructed_at_10
                   "font.ttf" 12))
         = prev_rsb_delta
             (fst constructed_at_10)).
Proof.
  split; [lia|].
  apply (@set_font_ready_iff q_scalars unit obliging_freetype
           constructed_at_10
           "font.ttf" 12).
  lia.
Defined.

(** ** Where a text starts *)

Section FirstGlyph.
Context {Sc : Scalars} {Ev : ArgumentOrder} {Ge : Geometry}.

Lemma layout_loop_head (y : float) (c : ascii) (rest : list ascii)
    (tm : TextMesher) (x : float) :
  hd_error (snd (layout_loop y (c :: rest) (tm, x, [])))
  = Some (snd (fst (generate_contours_char tm c x y))).
Proof.
  simpl. destruct (generate_contours_char tm c x y) as [[tm1 cc] x1].
  now rewrite layout_loop_frame.
Qed.

(** X16. The pen state is zeroed before the first character, so no
    kerning is applied to it, and when its [lsb_delta] lies in
    [(-32, 32]] no side-bearing correction either: the outline of the
    first character is placed exactly at the [x] and [y] of the call. *)
Theorem first_glyph_starts_at_x (tm : TextMesher) (c : ascii)
    (rest : list ascii) (x y : float) (slot : GlyphSlot) :
  ready_ tm = true ->
  FT_Load_Glyph (font_face_ tm) (FT_Get_Char_Index (font_face_ tm) c)
  = Some slot ->
  get_glyph_ok slot = true ->
  format_is_outline slot = true ->
  (-32 < lsb_delta slot <= 32)%Z ->
  hd_error (snd (generate_contours tm (c :: rest) x y []))
  = Some {| character := c;
            contours := map (fun k => polygon_of k x y)
                            (vectorise slot (bezier_steps_ tm)) |}.
Proof.
  intros Hr Hl Hg Hf Hd.
  rewrite generate_contours_ready by assumption. cbn [snd].
  rewrite layout_loop_head.
  rewrite (@generate_contours_char_loads _ (reset_pen tm) c x y slot)
    by assumption.
  unfold extracted, kerned, rsb_corrected. cbn.
  rewrite andb_false_r.
  destruct (Z.geb_spec (- lsb_delta slot) 32) as [Hn|_]; [lia|].
  destruct (Z.ltb_spec (- lsb_delta slot) (-32)) as [Hn|_]; [lia|].
  reflexivity.
Qed.

End FirstGlyph.

Lemma first_glyph_starts_at_x_at_OI :
  ready_ (test_mesher true) = true
  /\ FT_Load_Glyph (font_face_ (test_mesher true))
                   (FT_Get_Char_Index (font_face_ (test_mesher true)) "O")
     = Some (outline_glyph 0 0 704 [square 0 640 true; square 128 512 false])
  /\ get_glyph_ok
       (outline_glyph 0 0 704 [square 0 640 true; square 128 512 false])
     = true
  /\ format_is_outline
       (outline_glyph 0 0 704 [square 0 640 true; square 128 512 false])
     = true
  /\ (-32 < lsb_delta
              (outline_glyph 0 0 704
                 [square 0 640 true; square 128 512 false]) <= 32)%Z
  /\ hd_error (snd (@generate_contours q_scalars (test_mesher true)
                      ("O"%char :: text_of "I") 3%Q 5%Q []))
     = Some (@Build_CharContour q_scalars "O"
               (map (fun k => @polygon_of q_scalars k 3%Q 5%Q)
                    (vectorise
                       (outline_glyph 0 0 704
                          [square 0 640 true; square 128 512 false])
                       (bezier_steps_ (test_mesher true))))).
Proof.
  split; [reflexivity|]. split; [reflexivity|]. split; [reflexivity|].
  split; [reflexivity|]. split; [cbn; lia|].
  apply (@first_glyph_starts_at_x q_scalars (test_mesher true) "O"
           (text_of "I") 3%Q 5%Q
           (outline_glyph 0 0 704 [square 0 640 true; square 128 512 false]));
    try reflexivity.
  cbn; lia.
Defined.
